(** * A shallow embedding of the jxpush core: token-bucket rate limiter,
    exponential backoff, retry engine and in-memory priority queue.

    JavaScript numbers are modelled as exact rationals [Q] (token levels,
    rates, delays, multipliers) or integers [Z] (timestamps from
    [Date.now()], the results of [Math.floor] / [Math.ceil], priorities and
    attempt counts).  The clock is an explicit argument: each method that
    reads [Date.now()] receives the current instant [now]. *)

From Stdlib Require Import ZArith QArith Qminmax Qround List Bool Lia.
From Stdlib Require Import Qabs Qpower Lqa String Ascii Sorting.Sorted Sorting.Permutation.
Import ListNotations.

Open Scope Z_scope.

(* ------------------------------------------------------------------ *)
(** ** utils/backoff.ts *)

(** [calculateBackoff attempt initialDelayMs maxDelayMs multiplier useJitter].
    [Math.random()] is the argument [random], a value in [0, 1). *)
Definition calculateBackoff (attempt : nat) (initialDelayMs maxDelayMs multiplier : Q)
    (useJitter : bool) (random : Q) : Z :=
  let delay := (initialDelayMs * multiplier ^ Z.of_nat attempt)%Q in
  let delay := Qmin delay maxDelayMs in
  let delay :=
    if useJitter then
      let jitterRange := (delay * (1 # 4))%Q in
      let jitter := (random * jitterRange * 2 - jitterRange)%Q in
      Qmax 0 (delay + jitter)
    else delay in
  Qfloor delay.

(* ------------------------------------------------------------------ *)
(** ** rate-limit/RateLimiter.ts *)

(** [class TokenBucket]: level, time of the last refill, capacity and
    refill rate in tokens per millisecond. *)
Record TokenBucket := mkTokenBucket {
  tokens : Q;
  lastRefill : Z;
  capacity : Q;
  refillRate : Q
}.

(** [new TokenBucket(capacity, refillRate)] at instant [now]. *)
Definition newTokenBucket (capacity refillRate : Q) (now : Z) : TokenBucket :=
  mkTokenBucket capacity now capacity refillRate.

(** [private refill()] *)
Definition refill (now : Z) (b : TokenBucket) : TokenBucket :=
  let timePassed := now - lastRefill b in
  let tokensToAdd := (inject_Z timePassed * refillRate b)%Q in
  mkTokenBucket (Qmin (capacity b) (tokens b + tokensToAdd)) now
    (capacity b) (refillRate b).

(** [tryConsume(count)] *)
Definition tryConsume (count : Q) (now : Z) (b0 : TokenBucket) : bool * TokenBucket :=
  let b := refill now b0 in
  if Qle_bool count (tokens b) then
    (true, mkTokenBucket (tokens b - count) (lastRefill b) (capacity b) (refillRate b))
  else (false, b).

(** [getWaitTime(count)] *)
Definition getWaitTime (count : Q) (now : Z) (b0 : TokenBucket) : Z * TokenBucket :=
  let b := refill now b0 in
  if Qle_bool count (tokens b) then (0, b)
  else
    let tokensNeeded := (count - tokens b)%Q in
    (Qceiling (tokensNeeded / refillRate b), b).

(** [getTokenCount()] *)
Definition getTokenCount (now : Z) (b0 : TokenBucket) : Q * TokenBucket :=
  let b := refill now b0 in (tokens b, b).

(** [RateLimitConfig]: every field optional. *)
Record RateLimitConfig := mkRateLimitConfig {
  opt_maxPerSecond : option Q;
  opt_maxPerMinute : option Q;
  opt_enabled : option bool;
  opt_allowBurst : option bool;
  opt_burstMultiplier : option Q
}.

(** [Required<RateLimitConfig>] *)
Record RateLimitSettings := mkRateLimitSettings {
  maxPerSecond : Q;
  maxPerMinute : Q;
  rl_enabled : bool;
  allowBurst : bool;
  burstMultiplier : Q
}.

(** The nullish-coalescing operator [x ?? d]. *)
Definition nullish {A} (x : option A) (d : A) : A :=
  match x with Some v => v | None => d end.

Record RateLimiter := mkRateLimiter {
  rl_config : RateLimitSettings;
  perSecondBucket : TokenBucket;
  perMinuteBucket : TokenBucket
}.

(** [new RateLimiter(config, logger)] at instant [now]. *)
Definition newRateLimiter (config : RateLimitConfig) (now : Z) : RateLimiter :=
  let c := mkRateLimitSettings
             (nullish (opt_maxPerSecond config) 100%Q)
             (nullish (opt_maxPerMinute config) 3000%Q)
             (nullish (opt_enabled config) true)
             (nullish (opt_allowBurst config) true)
             (nullish (opt_burstMultiplier config) (3 # 2)) in
  let perSecondCapacity :=
    if allowBurst c then inject_Z (Qfloor (maxPerSecond c * burstMultiplier c)%Q)
    else maxPerSecond c in
  let perMinuteCapacity :=
    if allowBurst c then inject_Z (Qfloor (maxPerMinute c * burstMultiplier c)%Q)
    else maxPerMinute c in
  mkRateLimiter c
    (newTokenBucket perSecondCapacity (maxPerSecond c / 1000)%Q now)
    (newTokenBucket perMinuteCapacity (maxPerMinute c / 60000)%Q now).

(** [acquire(count)]: returns [{ success, waitMs }] and the new limiter. *)
Definition acquire (count : Q) (now : Z) (rl : RateLimiter) : (bool * Z) * RateLimiter :=
  if negb (rl_enabled (rl_config rl)) then ((true, 0), rl)
  else
    let (canConsumePerSecond, ps1) := tryConsume count now (perSecondBucket rl) in
    let (canConsumePerMinute, pm1) := tryConsume count now (perMinuteBucket rl) in
    if canConsumePerSecond && canConsumePerMinute then
      ((true, 0), mkRateLimiter (rl_config rl) ps1 pm1)
    else
      let (waitPerSecond, ps2) := getWaitTime count now ps1 in
      let (waitPerMinute, pm2) := getWaitTime count now pm1 in
      ((false, Z.max waitPerSecond waitPerMinute), mkRateLimiter (rl_config rl) ps2 pm2).

(** [reset()] at instant [now]. *)
Definition reset (now : Z) (rl : RateLimiter) : RateLimiter :=
  let c := rl_config rl in
  mkRateLimiter c
    (newTokenBucket (maxPerSecond c) (maxPerSecond c / 1000)%Q now)
    (newTokenBucket (maxPerMinute c) (maxPerMinute c / 60000)%Q now).

(** [k] successive [acquire(1)] calls at the same instant; the list of
    their [success] flags. *)
Fixpoint acquireMany (k : nat) (now : Z) (rl : RateLimiter) : list bool :=
  match k with
  | O => []
  | S k' => let '((ok, _), rl') := acquire 1%Q now rl in ok :: acquireMany k' now rl'
  end.

(** Number of consecutive [acquire(1)] calls at one instant that succeed
    before the first failure, looking at most [fuel] calls ahead. *)
Fixpoint admitted (fuel : nat) (now : Z) (rl : RateLimiter) : nat :=
  match fuel with
  | O => O
  | S f => let '((ok, _), rl') := acquire 1%Q now rl in
           if ok then S (admitted f now rl') else O
  end.

(* ------------------------------------------------------------------ *)
(** ** errors/PushError.ts *)

(** A JavaScript [Error] object: its [name], its [message] and, when it is
    an instance of [PushError], its [retryable] flag. *)
Record JsError := mkJsError {
  err_name : string;
  err_message : string;
  err_pushRetryable : option bool
}.

(** A thrown JavaScript value: an [Error] object, another value (given by
    its [String(...)] rendering), or [undefined]. *)
Inductive Thrown :=
| ThrownError (e : JsError)
| ThrownOther (s : string)
| ThrownUndefined.

Definition lowerAscii (c : ascii) : ascii :=
  let n := nat_of_ascii c in
  if (65 <=? n)%nat && (n <=? 90)%nat then ascii_of_nat (n + 32) else c.

Fixpoint lowerString (s : string) : string :=
  match s with
  | EmptyString => EmptyString
  | String c s' => String (lowerAscii c) (lowerString s')
  end.

(** [s] contains [pat] as a substring. *)
Fixpoint containsStr (pat s : string) : bool :=
  prefix pat s ||
  match s with
  | EmptyString => false
  | String _ s' => containsStr pat s'
  end.

(** [regex.test(s)] for the literal patterns of [isRetryable], with the
    [i] flag as [caseInsensitive]. *)
Definition regexTest (pat : string) (caseInsensitive : bool) (s : string) : bool :=
  if caseInsensitive then containsStr (lowerString pat) (lowerString s)
  else containsStr pat s.

Definition retryablePatterns : list (string * bool) :=
  [("timeout", true); ("ETIMEDOUT", true); ("ECONNRESET", true);
   ("ENOTFOUND", true); ("ECONNREFUSED", true);
   ("503", false); ("502", false); ("429", false); ("500", false)]%string.

(** [PushError.isRetryable(error)] *)
Definition isRetryable (error : JsError) : bool :=
  match err_pushRetryable error with
  | Some retryable => retryable
  | None =>
      existsb (fun p => regexTest (fst p) (snd p) (err_message error)) retryablePatterns
  end.

(* ------------------------------------------------------------------ *)
(** ** retry/RetryEngine.ts *)

(** [Required<RetryConfig>] *)
Record RetryConfig := mkRetryConfig {
  maxAttempts : Z;
  initialDelayMs : Q;
  maxDelayMs : Q;
  backoffMultiplier : Q;
  rt_enabled : bool;
  useJitter : bool
}.

(** [Partial<RetryConfig>]: an absent key is [None]. *)
Record PartialRetryConfig := mkPartialRetryConfig {
  p_maxAttempts : option Z;
  p_initialDelayMs : option Q;
  p_maxDelayMs : option Q;
  p_backoffMultiplier : option Q;
  p_enabled : option bool;
  p_useJitter : option bool
}.

(** The constructor's defaults. *)
Definition retryDefaults (c : PartialRetryConfig) : RetryConfig :=
  mkRetryConfig (nullish (p_maxAttempts c) 3) (nullish (p_initialDelayMs c) 1000%Q)
    (nullish (p_maxDelayMs c) 30000%Q) (nullish (p_backoffMultiplier c) 2%Q)
    (nullish (p_enabled c) true) (nullish (p_useJitter c) true).

(** [{ ...config, ...custom }]: the keys present in [custom] win. *)
Definition mergeRetryConfig (config : RetryConfig) (custom : PartialRetryConfig) : RetryConfig :=
  mkRetryConfig (nullish (p_maxAttempts custom) (maxAttempts config))
    (nullish (p_initialDelayMs custom) (initialDelayMs config))
    (nullish (p_maxDelayMs custom) (maxDelayMs config))
    (nullish (p_backoffMultiplier custom) (backoffMultiplier config))
    (nullish (p_enabled custom) (rt_enabled config))
    (nullish (p_useJitter custom) (useJitter config)).

Record RetryEngine := mkRetryEngine { engine_config : RetryConfig }.

(** How a call of the operation settles: resolved with a value or rejected
    with a thrown value. *)
Inductive Outcome (T : Type) :=
| Resolved (v : T)
| Rejected (e : Thrown).
Arguments Resolved {T} v.
Arguments Rejected {T} e.

(** [error instanceof Error ? error : new Error(String(error))] *)
Definition toError (v : Thrown) : JsError :=
  match v with
  | ThrownError e => e
  | ThrownOther s => mkJsError "Error" s None
  | ThrownUndefined => mkJsError "Error" "undefined" None
  end.

(** What one run of [execute] did: how it settled, how many times it
    invoked the operation, and [ctx.totalDelayMs]. *)
Record ExecRun (T : Type) := mkExecRun {
  run_outcome : Outcome T;
  run_calls : nat;
  run_totalDelayMs : Z
}.
Arguments mkExecRun {T} _ _ _.
Arguments run_outcome {T} _.
Arguments run_calls {T} _.
Arguments run_totalDelayMs {T} _.

Section Execute.
Context {T : Type}.
(** The operation: [fn i] is how its [i]-th invocation (from 0) settles. *)
Variable fn : nat -> Outcome T.
(** [Math.random()] as drawn by [calculateBackoff] after attempt [i]. *)
Variable random : nat -> Q.
Variable config : RetryConfig.

(** The [for] loop of [execute]; [fuel] bounds the remaining iterations. *)
Fixpoint retryLoop (fuel : nat) (attempt : Z) (lastError : Thrown) (calls : nat)
    (totalDelayMs : Z) : ExecRun T :=
  match fuel with
  | O => mkExecRun (Rejected lastError) calls totalDelayMs
  | S fuel' =>
      if attempt <? maxAttempts config then
        match fn calls with
        | Resolved v => mkExecRun (Resolved v) (S calls) totalDelayMs
        | Rejected error =>
            let lastError := toError error in
            let retryable := isRetryable lastError in
            if (attempt =? maxAttempts config - 1) || negb retryable then
              mkExecRun (Rejected (ThrownError lastError)) (S calls) totalDelayMs
            else
              let delayMs := calculateBackoff (Z.to_nat attempt) (initialDelayMs config)
                               (maxDelayMs config) (backoffMultiplier config)
                               (useJitter config) (random (Z.to_nat attempt)) in
              retryLoop fuel' (attempt + 1) (ThrownError lastError) (S calls)
                (totalDelayMs + delayMs)
        end
      else mkExecRun (Rejected lastError) calls totalDelayMs
  end.

(** [execute(fn)] under [config]; the loop runs at most [maxAttempts]
    times, and [lastError] starts unassigned. *)
Definition execute : ExecRun T :=
  if negb (rt_enabled config) then mkExecRun (fn 0%nat) 1%nat 0
  else retryLoop (Z.to_nat (maxAttempts config)) 0 ThrownUndefined 0%nat 0.
End Execute.

(** [engine.execute(fn)] *)
Definition engineExecute {T} (fn : nat -> Outcome T) (random : nat -> Q)
    (eng : RetryEngine) : ExecRun T * RetryEngine :=
  (execute fn random (engine_config eng), eng).

(** [executeWithConfig(fn, customConfig)]: the [finally] block restores the
    saved copy of the configuration whichever way [execute] settles. *)
Definition executeWithConfig {T} (fn : nat -> Outcome T) (random : nat -> Q)
    (customConfig : PartialRetryConfig) (eng : RetryEngine) : ExecRun T * RetryEngine :=
  let originalConfig := engine_config eng in
  let eng := mkRetryEngine (mergeRetryConfig (engine_config eng) customConfig) in
  let (r, eng) := engineExecute fn random eng in
  (r, mkRetryEngine originalConfig).

(* ------------------------------------------------------------------ *)
(** ** queue/InMemoryQueue.ts *)

Section InMemoryQueue.
Context {Msg : Type}.

(** The id [`queue-${counter}-${Date.now()}`], kept as its two parts. *)
Record QueueId := mkQueueId { qid_counter : nat; qid_time : Z }.

Definition QueueId_eqb (a b : QueueId) : bool :=
  Nat.eqb (qid_counter a) (qid_counter b) && Z.eqb (qid_time a) (qid_time b).

Record QueueItem := mkQueueItem {
  item_id : QueueId;
  message : Msg;
  priority : Z;
  addedAt : Z;
  attempts : nat
}.

Record InMemoryQueue := mkInMemoryQueue {
  queue : list QueueItem;
  maxSize : Z;
  idCounter : nat
}.

(** [new InMemoryQueue(maxSize, logger)] *)
Definition newInMemoryQueue (maxSize : Z) : InMemoryQueue :=
  mkInMemoryQueue [] maxSize 0.

(** The comparator [(a, b) => b.priority - a.priority]. *)
Definition byPriority (a b : QueueItem) : Z := priority b - priority a.

(** [Array.prototype.sort] with [byPriority]: the sort is stable, so its
    result is the stable sorted permutation, computed here by insertion:
    [x] goes after every [y] with [byPriority y x <= 0]. *)
Fixpoint insertSorted (x : QueueItem) (l : list QueueItem) : list QueueItem :=
  match l with
  | [] => [x]
  | y :: r => if byPriority y x <=? 0 then y :: insertSorted x r else x :: y :: r
  end.

Definition sortByPriority (l : list QueueItem) : list QueueItem :=
  fold_left (fun acc x => insertSorted x acc) l [].

Inductive QueueError := QueueFull (maxSize : Z).

(** [enqueue(message, priority)] at instant [now]: the id, or the thrown
    error with the queue untouched. *)
Definition enqueue (msg : Msg) (prio : Z) (now : Z) (q : InMemoryQueue)
    : (QueueError + QueueId) * InMemoryQueue :=
  if (0 <? maxSize q) && (maxSize q <=? Z.of_nat (List.length (queue q))) then
    (inl (QueueFull (maxSize q)), q)
  else
    let counter := S (idCounter q) in
    let id := mkQueueId counter now in
    let item := mkQueueItem id msg prio now 0 in
    (inr id, mkInMemoryQueue (sortByPriority (app (queue q) [item])) (maxSize q) counter).

(** [dequeue()]: [this.queue.shift()]. *)
Definition dequeue (q : InMemoryQueue) : option QueueItem * InMemoryQueue :=
  match queue q with
  | [] => (None, q)
  | item :: rest => (Some item, mkInMemoryQueue rest (maxSize q) (idCounter q))
  end.

(** [findIndex] then [splice(index, 1)]: drop the first item with [id]. *)
Fixpoint removeFirst (id : QueueId) (l : list QueueItem) : option (list QueueItem) :=
  match l with
  | [] => None
  | x :: r =>
      if QueueId_eqb (item_id x) id then Some r
      else option_map (cons x) (removeFirst id r)
  end.

(** [remove(id)] *)
Definition remove (id : QueueId) (q : InMemoryQueue) : bool * InMemoryQueue :=
  match removeFirst id (queue q) with
  | Some l => (true, mkInMemoryQueue l (maxSize q) (idCounter q))
  | None => (false, q)
  end.

(** The operations a client issues; a rejected [enqueue] is caught by the
    client and leaves the queue as it was. *)
Inductive QueueOp :=
| OpEnqueue (msg : Msg) (prio : Z) (now : Z)
| OpDequeue
| OpRemove (id : QueueId).

Definition stepQueue (q : InMemoryQueue) (op : QueueOp) : InMemoryQueue :=
  match op with
  | OpEnqueue m p t => snd (enqueue m p t q)
  | OpDequeue => snd (dequeue q)
  | OpRemove id => snd (remove id q)
  end.

Definition runQueue (ops : list QueueOp) (q : InMemoryQueue) : InMemoryQueue :=
  fold_left stepQueue ops q.
End InMemoryQueue.


Arguments QueueItem : clear implicits.
Arguments InMemoryQueue : clear implicits.
Arguments QueueOp : clear implicits.

(* ------------------------------------------------------------------ *)
(** ** queue/InMemoryQueue.ts: the remaining methods *)

Section InMemoryQueueMethods.
Context {Msg : Type}.

(** [peek()] *)
Definition peek (q : InMemoryQueue Msg) : option (QueueItem Msg) := hd_error (queue q).

(** [size()] *)
Definition size (q : InMemoryQueue Msg) : nat := List.length (queue q).

(** [isEmpty()] *)
Definition isEmpty (q : InMemoryQueue Msg) : bool := Nat.eqb (List.length (queue q)) 0.

(** [isFull()] *)
Definition isFull (q : InMemoryQueue Msg) : bool :=
  (0 <? maxSize q) && (maxSize q <=? Z.of_nat (List.length (queue q))).

(** [clear()]: the id counter is kept. *)
Definition clear (q : InMemoryQueue Msg) : InMemoryQueue Msg :=
  mkInMemoryQueue [] (maxSize q) (idCounter q).

(** [getAll()]: a copy of the items. *)
Definition getAll (q : InMemoryQueue Msg) : list (QueueItem Msg) := queue q.

(** The [for] loop of [dequeueBatch(count)]; [fuel] bounds the iterations
    (each one that runs removes an item). *)
Fixpoint dequeueBatchLoop (fuel : nat) (i count : Z) (q : InMemoryQueue Msg)
    (items : list (QueueItem Msg)) : list (QueueItem Msg) * InMemoryQueue Msg :=
  match fuel with
  | O => (items, q)
  | S f =>
      if (i <? count) && (0 <? Z.of_nat (List.length (queue q))) then
        match dequeue q with
        | (Some item, q') => dequeueBatchLoop f (i + 1) count q' (app items [item])
        | (None, q') => dequeueBatchLoop f (i + 1) count q' items
        end
      else (items, q)
  end.

(** [dequeueBatch(count)] *)
Definition dequeueBatch (count : Z) (q : InMemoryQueue Msg)
    : list (QueueItem Msg) * InMemoryQueue Msg :=
  dequeueBatchLoop (List.length (queue q)) 0 count q [].

(** [queue.find((i) => i.id === id)] then [item.attempts++]. *)
Fixpoint incrementFirst (id : QueueId) (l : list (QueueItem Msg)) : list (QueueItem Msg) :=
  match l with
  | [] => []
  | x :: r =>
      if QueueId_eqb (item_id x) id then
        mkQueueItem (item_id x) (message x) (priority x) (addedAt x) (S (attempts x)) :: r
      else x :: incrementFirst id r
  end.

(** [incrementAttempts(id)] *)
Definition incrementAttempts (id : QueueId) (q : InMemoryQueue Msg) : InMemoryQueue Msg :=
  mkInMemoryQueue (incrementFirst id (queue q)) (maxSize q) (idCounter q).

(** Every mutating method of the queue; a rejected [enqueue] is caught by
    the caller and leaves the queue as it was. *)
Inductive QueueCmd :=
| CmdEnqueue (msg : Msg) (prio now : Z)
| CmdDequeue
| CmdDequeueBatch (count : Z)
| CmdRemove (id : QueueId)
| CmdIncrementAttempts (id : QueueId)
| CmdClear.

Definition stepCmd (q : InMemoryQueue Msg) (c : QueueCmd) : InMemoryQueue Msg :=
  match c with
  | CmdEnqueue m p t => snd (enqueue m p t q)
  | CmdDequeue => snd (dequeue q)
  | CmdDequeueBatch n => snd (dequeueBatch n q)
  | CmdRemove id => snd (remove id q)
  | CmdIncrementAttempts id => incrementAttempts id q
  | CmdClear => clear q
  end.

Definition runCmds (cs : list QueueCmd) (q : InMemoryQueue Msg) : InMemoryQueue Msg :=
  fold_left stepCmd cs q.
End InMemoryQueueMethods.

Arguments QueueCmd : clear implicits.

(* ------------------------------------------------------------------ *)
(** ** utils/chunk.ts *)

(** [array.slice(start, end)] for [0 <= start <= end]. *)
Definition slice {A} (array : list A) (start end_ : Z) : list A :=
  firstn (Z.to_nat end_ - Z.to_nat start) (skipn (Z.to_nat start) array).

(** The [for] loop of [chunk]; [fuel] bounds the iterations. *)
Fixpoint chunkLoop {A} (array : list A) (chunkSize : Z) (fuel : nat) (i : Z)
    (chunks : list (list A)) : list (list A) :=
  match fuel with
  | O => chunks
  | S f =>
      if i <? Z.of_nat (List.length array) then
        chunkLoop array chunkSize f (i + chunkSize) (app chunks [slice array i (i + chunkSize)])
      else chunks
  end.

(** [chunk(array, chunkSize)]: the thrown error or the chunks. *)
Definition chunk {A} (array : list A) (chunkSize : Z) : string + list (list A) :=
  if chunkSize <=? 0 then inl "Chunk size must be greater than 0"%string
  else
    match array with
    | [] => inr []
    | _ => inr (chunkLoop array chunkSize (List.length array) 0 [])
    end.

(** [chunkIntoN(array, numChunks)] *)
Definition chunkIntoN {A} (array : list A) (numChunks : Z) : string + list (list A) :=
  if numChunks <=? 0 then inl "Number of chunks must be greater than 0"%string
  else
    match array with
    | [] => inr []
    | _ =>
        let chunkSize := Qceiling (inject_Z (Z.of_nat (List.length array)) / inject_Z numChunks) in
        chunk array chunkSize
    end.

(* ------------------------------------------------------------------ *)
(** ** utils/backoff.ts: [withBackoff] *)

Section WithBackoff.
Context {T : Type}.
Variable fn : nat -> Outcome T.
Variable random : nat -> Q.
Variables (maxAttempts : Z) (initialDelayMs maxDelayMs multiplier : Q).
Variable shouldRetry : JsError -> bool.

(** The [for] loop of [withBackoff]; [calculateBackoff] is called with its
    default [useJitter = true]. *)
Fixpoint withBackoffLoop (fuel : nat) (attempt : Z) (lastError : Thrown) (calls : nat)
    (slept : Z) : ExecRun T :=
  match fuel with
  | O => mkExecRun (Rejected lastError) calls slept
  | S fuel' =>
      if attempt <? maxAttempts then
        match fn calls with
        | Resolved v => mkExecRun (Resolved v) (S calls) slept
        | Rejected error =>
            let lastError := toError error in
            if (attempt =? maxAttempts - 1) || negb (shouldRetry lastError) then
              mkExecRun (Rejected (ThrownError lastError)) (S calls) slept
            else
              let delay := calculateBackoff (Z.to_nat attempt) initialDelayMs maxDelayMs
                             multiplier true (random (Z.to_nat attempt)) in
              withBackoffLoop fuel' (attempt + 1) (ThrownError lastError) (S calls)
                (slept + delay)
        end
      else mkExecRun (Rejected lastError) calls slept
  end.

(** [withBackoff(fn, maxAttempts, initialDelayMs, maxDelayMs, multiplier,
    shouldRetry)]; the third field is the total time slept. *)
Definition withBackoff : ExecRun T :=
  withBackoffLoop (Z.to_nat maxAttempts) 0 ThrownUndefined 0%nat 0.
End WithBackoff.

(* ------------------------------------------------------------------ *)
(** ** errors/PushError.ts: [PushError.from] *)

(** [PushError.from(error)] (the [code] field is not tracked). *)
Definition pushErrorFrom (v : Thrown) : JsError :=
  match v with
  | ThrownError e =>
      match err_pushRetryable e with
      | Some _ => e
      | None => mkJsError "PushError" (err_message e) (Some (isRetryable e))
      end
  | ThrownOther s => mkJsError "PushError" s (Some false)
  | ThrownUndefined => mkJsError "PushError" "undefined" (Some false)
  end.

(* ------------------------------------------------------------------ *)
(** ** rate-limit/RateLimiter.ts: [waitAndAcquire] and [getStatus] *)

(** [waitAndAcquire(count)] from instant [now]: each failed [acquire] is
    followed by [setTimeout(resolve, waitMs)], whose timer fires [late i]
    milliseconds after the requested [waitMs] on the [i]-th wait.  [fuel]
    bounds the number of [acquire] calls; the result is the instant of the
    successful [acquire] and the limiter after it. *)
Fixpoint waitAndAcquireLoop (late : nat -> Z) (fuel i : nat) (count : Q) (now : Z)
    (rl : RateLimiter) : option (Z * RateLimiter) :=
  match fuel with
  | O => None
  | S f =>
      let '((success, waitMs), rl') := acquire count now rl in
      if success then Some (now, rl')
      else waitAndAcquireLoop late f (S i) count (now + waitMs + late i) rl'
  end.

Definition waitAndAcquire (late : nat -> Z) (fuel : nat) (count : Q) (now : Z)
    (rl : RateLimiter) : option (Z * RateLimiter) :=
  waitAndAcquireLoop late fuel 0 count now rl.

(** [getStatus()] at instant [now]: [perSecondTokens], [perMinuteTokens],
    [enabled], and the limiter after the two refills. *)
Definition getStatus (now : Z) (rl : RateLimiter) : (Q * Q * bool) * RateLimiter :=
  let (perSecondTokens, ps) := getTokenCount now (perSecondBucket rl) in
  let (perMinuteTokens, pm) := getTokenCount now (perMinuteBucket rl) in
  ((perSecondTokens, perMinuteTokens, rl_enabled (rl_config rl)),
   mkRateLimiter (rl_config rl) ps pm).

(** The public methods of a [RateLimiter], each at the instant it runs. *)
Inductive LimiterCall :=
| CallAcquire (count : Q) (now : Z)
| CallGetStatus (now : Z)
| CallReset (now : Z).

Definition callTime (c : LimiterCall) : Z :=
  match c with CallAcquire _ t | CallGetStatus t | CallReset t => t end.

Definition stepLimiter (rl : RateLimiter) (c : LimiterCall) : RateLimiter :=
  match c with
  | CallAcquire n t => snd (acquire n t rl)
  | CallGetStatus t => snd (getStatus t rl)
  | CallReset t => reset t rl
  end.

Definition runLimiter (calls : list LimiterCall) (rl : RateLimiter) : RateLimiter :=
  fold_left stepLimiter calls rl.

(* ------------------------------------------------------------------ *)
(** ** Vocabulary of the statements below *)

(** A bucket whose level lies between 0 and its capacity, last refilled
    no later than [t], refilling at a nonnegative rate. *)
Definition bucketOk (t : Z) (b : TokenBucket) : Prop :=
  (0 <= tokens b <= capacity b)%Q /\ lastRefill b <= t /\ (0 <= refillRate b)%Q.

Definition limiterOk (t : Z) (rl : RateLimiter) : Prop :=
  bucketOk t (perSecondBucket rl) /\ bucketOk t (perMinuteBucket rl) /\
  (0 <= maxPerSecond (rl_config rl))%Q /\ (0 <= maxPerMinute (rl_config rl))%Q.

(** The level of a bucket after the lazy refill at instant [now]. *)
Definition refilledLevel (now : Z) (b : TokenBucket) : Q :=
  Qmin (capacity b) (tokens b + inject_Z (now - lastRefill b) * refillRate b)%Q.

(** [getWaitTime]'s answer for a level [lvl] reached after refill. *)
Definition waitFor (count lvl rate : Q) : Z :=
  if Qle_bool count lvl then 0 else Qceiling ((count - lvl) / rate)%Q.

(** A bucket last refilled at [now] that holds the integral level [x],
    within its capacity. *)
Definition bucketAt (now x : Z) (b : TokenBucket) : Prop :=
  lastRefill b = now /\ (tokens b == inject_Z x)%Q /\ (inject_Z x <= capacity b)%Q.

(** An operation every call of which rejects with a retryable [Error]. *)
Definition retryableFailure : nat -> Outcome nat :=
  fun _ => Rejected (ThrownError (mkJsError "Error" "ETIMEDOUT" None)).

(** [dequeue()] repeated until the queue reports empty, at most [fuel]
    times; the items in the order they came out. *)
Fixpoint dequeueAll {Msg : Type} (fuel : nat) (q : InMemoryQueue Msg) : list (QueueItem Msg) :=
  match fuel with
  | O => []
  | S f =>
      match dequeue q with
      | (Some x, q') => x :: dequeueAll f q'
      | (None, _) => []
      end
  end.

(** The order the queue keeps: higher priority first. *)
Definition higherFirst {Msg : Type} (a b : QueueItem Msg) : Prop := priority b <= priority a.

(* ================================================================== *)
(** * Rate limiter: properties *)

Lemma refill_at_same_instant (now x : Z) (b : TokenBucket) :
  bucketAt now x b -> bucketAt now x (refill now b) /\ (tokens (refill now b) == inject_Z x)%Q.
Proof.
  intros [Hl [Ht Hc]]. unfold refill; simpl.
  assert (E : (Qmin (capacity b) (tokens b + inject_Z (now - lastRefill b) * refillRate b)
              == inject_Z x)%Q).
  { rewrite Hl, Z.sub_diag, Ht.
    setoid_replace (inject_Z x + inject_Z 0 * refillRate b)%Q with (inject_Z x) by ring.
    apply Q.min_r; exact Hc. }
  repeat split; simpl; auto.
Qed.

Lemma tryConsume_one_at_same_instant (now x : Z) (b : TokenBucket) :
  bucketAt now x b ->
  fst (tryConsume 1 now b) = (1 <=? x) /\
  bucketAt now (if 1 <=? x then x - 1 else x) (snd (tryConsume 1 now b)).
Proof.
  intros H. destruct (refill_at_same_instant now x b H) as [[Hl [Ht Hc]] E].
  unfold tryConsume.
  assert (B : Qle_bool 1 (tokens (refill now b)) = (1 <=? x)).
  { rewrite E. apply eq_true_iff_eq. rewrite Qle_bool_iff, Z.leb_le.
    rewrite Zle_Qle. reflexivity. }
  rewrite B. destruct (1 <=? x) eqn:Ex; simpl.
  - split; [reflexivity|]. repeat split; simpl; auto.
    + rewrite E. unfold Z.sub. rewrite inject_Z_plus, inject_Z_opp. reflexivity.
    + apply Qle_trans with (inject_Z x); [|exact Hc].
      rewrite <- Zle_Qle. lia.
  - split; [reflexivity|]. repeat split; auto.
Qed.

Lemma admitted_at_same_instant (fuel : nat) : forall (now x y : Z) (rl : RateLimiter),
  rl_enabled (rl_config rl) = true -> 0 <= x -> 0 <= y ->
  bucketAt now x (perSecondBucket rl) -> bucketAt now y (perMinuteBucket rl) ->
  Z.of_nat (admitted fuel now rl) = Z.min (Z.of_nat fuel) (Z.min x y).
Proof.
  induction fuel as [|fuel IH]; intros now x y rl He Hx Hy Hs Hm; simpl.
  - lia.
  - unfold acquire. rewrite He; simpl.
    destruct (tryConsume_one_at_same_instant now x _ Hs) as [Fs Bs].
    destruct (tryConsume_one_at_same_instant now y _ Hm) as [Fm Bm].
    destruct (tryConsume 1 now (perSecondBucket rl)) as [okS ps1] eqn:Es.
    destruct (tryConsume 1 now (perMinuteBucket rl)) as [okM pm1] eqn:Em.
    simpl in Fs, Fm, Bs, Bm. subst okS okM.
    destruct (1 <=? x) eqn:Ex, (1 <=? y) eqn:Ey; simpl.
    + rewrite Zpos_P_of_succ_nat.
      rewrite (IH now (x - 1) (y - 1) (mkRateLimiter (rl_config rl) ps1 pm1));
        simpl; auto; try lia.
    + destruct (getWaitTime 1 now ps1), (getWaitTime 1 now pm1). simpl.
      apply Z.leb_gt in Ey. lia.
    + destruct (getWaitTime 1 now ps1), (getWaitTime 1 now pm1). simpl.
      apply Z.leb_gt in Ex. lia.
    + destruct (getWaitTime 1 now ps1), (getWaitTime 1 now pm1). simpl.
      apply Z.leb_gt in Ex. lia.
Qed.

Lemma tryConsume_level (n : Q) (now : Z) (b : TokenBucket) :
  fst (tryConsume n now b) = Qle_bool n (refilledLevel now b) /\
  tokens (snd (tryConsume n now b)) =
    (if Qle_bool n (refilledLevel now b) then refilledLevel now b - n
     else refilledLevel now b)%Q /\
  lastRefill (snd (tryConsume n now b)) = now /\
  capacity (snd (tryConsume n now b)) = capacity b /\
  refillRate (snd (tryConsume n now b)) = refillRate b.
Proof.
  unfold tryConsume, refilledLevel, refill; simpl.
  destruct (Qle_bool _ _); simpl; repeat split.
Qed.

Lemma refilledLevel_le_capacity (now : Z) (b : TokenBucket) :
  (refilledLevel now b <= capacity b)%Q.
Proof. unfold refilledLevel. apply Q.le_min_l. Qed.

Lemma tryConsume_within_capacity (n : Q) (now : Z) (b : TokenBucket) :
  (0 <= n)%Q ->
  (tokens (snd (tryConsume n now b)) <= capacity (snd (tryConsume n now b)))%Q.
Proof.
  intros Hn. destruct (tryConsume_level n now b) as (_ & Ht & _ & Hc & _).
  rewrite Ht, Hc. pose proof (refilledLevel_le_capacity now b) as Hle.
  destruct (Qle_bool _ _); [|exact Hle].
  apply Qle_trans with (refilledLevel now b); [|exact Hle].
  rewrite <- (Qplus_0_r (refilledLevel now b)) at 2.
  unfold Qminus. apply Qplus_le_r. rewrite <- (Qopp_involutive 0).
  apply Qopp_le_compat. exact Hn.
Qed.

Lemma refill_noop (now : Z) (b : TokenBucket) :
  lastRefill b = now -> (tokens b <= capacity b)%Q ->
  (tokens (refill now b) == tokens b)%Q.
Proof.
  intros Hl Hc. unfold refill; simpl. rewrite Hl, Z.sub_diag.
  setoid_replace (tokens b + inject_Z 0 * refillRate b)%Q with (tokens b) by ring.
  apply Q.min_r; exact Hc.
Qed.

Lemma waitFor_compat (n l l' r : Q) : (l == l')%Q -> waitFor n l r = waitFor n l' r.
Proof. intros H. unfold waitFor. rewrite H. setoid_rewrite H. reflexivity. Qed.

Lemma getWaitTime_no_refill (n : Q) (now : Z) (b : TokenBucket) :
  lastRefill b = now -> (tokens b <= capacity b)%Q ->
  fst (getWaitTime n now b) = waitFor n (tokens b) (refillRate b) /\
  (tokens (snd (getWaitTime n now b)) == tokens b)%Q.
Proof.
  intros Hl Hc. pose proof (refill_noop now b Hl Hc) as E.
  assert (W : fst (getWaitTime n now b) = waitFor n (tokens (refill now b)) (refillRate b)).
  { unfold getWaitTime, waitFor. destruct (Qle_bool _ _); reflexivity. }
  rewrite W, (waitFor_compat _ _ _ _ E). split; [reflexivity|].
  unfold getWaitTime. destruct (Qle_bool _ _); exact E.
Qed.

(** Claim C1 (counterexample): [acquire] is not all-or-nothing.  A limiter
    with [maxPerSecond = 2], [maxPerMinute = 1] and no burst, asked for two
    permits: the per-second bucket supplies them and is debited, the
    per-minute bucket cannot, and the call still reports failure. *)
Lemma acquire_debits_one_bucket_on_failure :
  let rl := newRateLimiter (mkRateLimitConfig (Some 2%Q) (Some 1%Q) None (Some false) None) 0 in
  let r := acquire 2 0 rl in
  fst (fst r) = false /\ (tokens (perSecondBucket (snd r)) < tokens (perSecondBucket rl))%Q.
Proof. vm_compute. split; reflexivity. Qed.

(** Claim C1 (amended): on an enabled limiter, [acquire(n)] with [n >= 0]
    tries each bucket on its own.  It succeeds exactly when both refilled
    levels reach [n]; each bucket whose level reaches [n] is debited by [n]
    whether or not the other one is; on failure [waitMs] is the maximum of
    the two buckets' wait times, computed from the levels left after those
    debits. *)
Theorem acquire_tries_buckets_independently (rl : RateLimiter) (n : Q) (now : Z)
    (Hen : rl_enabled (rl_config rl) = true) (Hn : (0 <= n)%Q) :
  let ls := refilledLevel now (perSecondBucket rl) in
  let lm := refilledLevel now (perMinuteBucket rl) in
  let ls' := if Qle_bool n ls then (ls - n)%Q else ls in
  let lm' := if Qle_bool n lm then (lm - n)%Q else lm in
  let '((success, waitMs), rl') := acquire n now rl in
  success = Qle_bool n ls && Qle_bool n lm /\
  (tokens (perSecondBucket rl') == ls')%Q /\
  (tokens (perMinuteBucket rl') == lm')%Q /\
  waitMs = (if success then 0
            else Z.max (waitFor n ls' (refillRate (perSecondBucket rl)))
                       (waitFor n lm' (refillRate (perMinuteBucket rl)))).
Proof.
  cbv zeta. unfold acquire. rewrite Hen. cbn [negb].
  destruct (tryConsume_level n now (perSecondBucket rl)) as (Fs & Ts & Ls & Cs & Rs).
  destruct (tryConsume_level n now (perMinuteBucket rl)) as (Fm & Tm & Lm & Cm & Rm).
  pose proof (tryConsume_within_capacity n now (perSecondBucket rl) Hn) as Ks.
  pose proof (tryConsume_within_capacity n now (perMinuteBucket rl) Hn) as Km.
  destruct (tryConsume n now (perSecondBucket rl)) as [okS ps1].
  destruct (tryConsume n now (perMinuteBucket rl)) as [okM pm1].
  simpl in *. subst okS okM.
  destruct (getWaitTime_no_refill n now ps1 Ls Ks) as [Ws Es].
  destruct (getWaitTime_no_refill n now pm1 Lm Km) as [Wm Em].
  destruct (Qle_bool n (refilledLevel now (perSecondBucket rl))) eqn:Bs,
           (Qle_bool n (refilledLevel now (perMinuteBucket rl))) eqn:Bm;
    simpl; try (rewrite Ts, Tm; repeat split; reflexivity);
    destruct (getWaitTime n now ps1) as [ws ps2], (getWaitTime n now pm1) as [wm pm2];
    simpl in *; rewrite Ts in Es, Ws; rewrite Tm in Em, Wm;
    repeat split; auto; rewrite Ws, Wm, Rs, Rm; reflexivity.
Qed.

Lemma acquire_tries_buckets_independently_witness :
  rl_enabled (rl_config (newRateLimiter (mkRateLimitConfig (Some 2%Q) (Some 1%Q) None (Some false) None) 0)) = true /\
  (0 <= 2)%Q /\
  (let rl := newRateLimiter (mkRateLimitConfig (Some 2%Q) (Some 1%Q) None (Some false) None) 0 in
   let ls := refilledLevel 0 (perSecondBucket rl) in
   let lm := refilledLevel 0 (perMinuteBucket rl) in
   let ls' := if Qle_bool 2 ls then (ls - 2)%Q else ls in
   let lm' := if Qle_bool 2 lm then (lm - 2)%Q else lm in
   let '((success, waitMs), rl') := acquire 2 0 rl in
   success = Qle_bool 2 ls && Qle_bool 2 lm /\
   (tokens (perSecondBucket rl') == ls')%Q /\
   (tokens (perMinuteBucket rl') == lm')%Q /\
   waitMs = (if success then 0
             else Z.max (waitFor 2 ls' (refillRate (perSecondBucket rl)))
                        (waitFor 2 lm' (refillRate (perMinuteBucket rl))))).
Proof.
  split; [reflexivity|]. split; [vm_compute; discriminate|].
  apply acquire_tries_buckets_independently; [reflexivity | vm_compute; discriminate].
Defined.

(** Claim C2 (counterexample): with [maxPerSecond = 2],
    [maxPerMinute = 1000] and the other options at their defaults (burst on,
    multiplier 1.5), the per-second bucket holds [floor(2 * 1.5) = 3] tokens,
    so three [acquire(1)] calls at the construction instant all succeed. *)
Lemma third_acquire_succeeds_with_default_burst :
  acquireMany 3 0 (newRateLimiter (mkRateLimitConfig (Some 2%Q) (Some 1000%Q) None None None) 0)
  = [true; true; true].
Proof. vm_compute. reflexivity. Qed.

(** Claim C2 (amended): for [maxPerSecond = 2], [maxPerMinute = 1000],
    at the instant of construction: with the defaults (burst on, multiplier
    1.5) exactly three consecutive [acquire(1)] calls succeed and the fourth
    fails, while the per-minute bucket (capacity 1500) would admit far more;
    with [allowBurst = false] exactly two succeed and the third fails. *)
Theorem dual_window_limits_per_second (t0 : Z) :
  admitted 4 t0 (newRateLimiter (mkRateLimitConfig (Some 2%Q) (Some 1000%Q) None None None) t0)
    = 3%nat /\
  capacity (perMinuteBucket
    (newRateLimiter (mkRateLimitConfig (Some 2%Q) (Some 1000%Q) None None None) t0)) = 1500%Q /\
  admitted 3 t0
    (newRateLimiter (mkRateLimitConfig (Some 2%Q) (Some 1000%Q) None (Some false) None) t0)
    = 2%nat.
Proof.
  split; [|split; [reflexivity|]]; apply Nat2Z.inj.
  - rewrite (admitted_at_same_instant 4 t0 3 1500); try reflexivity; try lia;
      repeat split; vm_compute; try reflexivity; discriminate.
  - rewrite (admitted_at_same_instant 3 t0 2 1000); try reflexivity; try lia;
      repeat split; vm_compute; try reflexivity; discriminate.
Qed.

(** Claim C5: [tryConsume(n)] refills lazily to
    [min(capacity, tokens + elapsed * refillRate)], then succeeds and deducts
    [n] exactly when that level reaches [n], and otherwise keeps the
    refilled level; [getWaitTime(n)] is 0 when the refilled level reaches
    [n] and [ceil((n - level) / refillRate)] otherwise.  For a bucket of
    capacity 10 refilled at 1 token/ms, once its 10 tokens are consumed,
    at the same instant [getWaitTime(1) = 1] and [tryConsume(1)] fails. *)
Theorem tokenBucket_consume_and_wait (b : TokenBucket) (n : Q) (now : Z) :
  let lvl := refilledLevel now b in
  fst (tryConsume n now b) = Qle_bool n lvl /\
  tokens (snd (tryConsume n now b)) = (if Qle_bool n lvl then lvl - n else lvl)%Q /\
  lastRefill (snd (tryConsume n now b)) = now /\
  capacity (snd (tryConsume n now b)) = capacity b /\
  fst (getWaitTime n now b) = waitFor n lvl (refillRate b) /\
  (forall t : Z,
     let full := newTokenBucket 10 1 t in
     let drained := snd (tryConsume 10 t full) in
     fst (tryConsume 10 t full) = true /\
     fst (getWaitTime 1 t drained) = 1 /\
     fst (tryConsume 1 t drained) = false).
Proof.
  cbv zeta. destruct (tryConsume_level n now b) as (HF & HT & HL & HC & _).
  split; [exact HF|]. split; [exact HT|]. split; [exact HL|]. split; [exact HC|].
  split.
  - unfold getWaitTime, waitFor, refilledLevel, refill; simpl.
    destruct (Qle_bool _ _); reflexivity.
  - intros t0. unfold tryConsume, getWaitTime, refill, newTokenBucket. simpl.
    rewrite !Z.sub_diag. vm_compute. repeat split.
Qed.

(** Claim C10 (counterexample): with burst on, [maxPerSecond = 1],
    [maxPerMinute = 1] and the default multiplier 1.5, the burst capacities
    are [floor(1.5) = 1] as well, so a reset limiter admits as many
    consecutive permits as a freshly built one (one each), not fewer. *)
Lemma reset_admits_as_many_without_headroom :
  let rl := newRateLimiter (mkRateLimitConfig (Some 1%Q) (Some 1%Q) None (Some true) None) 0 in
  admitted 5 0 (reset 0 rl) = 1%nat /\ admitted 5 0 rl = 1%nat.
Proof. vm_compute. split; reflexivity. Qed.

(** Claim C10 (amended): [reset()] rebuilds both buckets full, with
    capacities exactly [maxPerSecond] and [maxPerMinute], whatever
    [allowBurst] and [burstMultiplier] are.  For integral maxima [s], [m] and
    a multiplier [k >= 0] with burst on, at one instant a reset limiter
    admits [min(s, m)] consecutive [acquire(1)] calls while a freshly built
    one admits [min(floor(s * k), floor(m * k))] (each count cut at the
    number [fuel] of calls tried); the reset limiter admits strictly fewer
    exactly when the second minimum exceeds the first. *)
Theorem reset_drops_burst_capacity (s m : Z) (k : Q) (t0 now : Z) (fuel : nat)
    (Hs : 0 <= s) (Hm : 0 <= m) (Hk : (0 <= k)%Q) :
  (forall rl' : RateLimiter,
     let r := reset now rl' in
     rl_config r = rl_config rl' /\
     capacity (perSecondBucket r) = maxPerSecond (rl_config rl') /\
     tokens (perSecondBucket r) = maxPerSecond (rl_config rl') /\
     capacity (perMinuteBucket r) = maxPerMinute (rl_config rl') /\
     tokens (perMinuteBucket r) = maxPerMinute (rl_config rl')) /\
  (let rl := newRateLimiter
               (mkRateLimitConfig (Some (inject_Z s)) (Some (inject_Z m)) (Some true)
                  (Some true) (Some k)) t0 in
   Z.of_nat (admitted fuel now (reset now rl)) = Z.min (Z.of_nat fuel) (Z.min s m) /\
   Z.of_nat (admitted fuel t0 rl)
     = Z.min (Z.of_nat fuel)
         (Z.min (Qfloor (inject_Z s * k)) (Qfloor (inject_Z m * k)))).
Proof.
  assert (F : forall x : Z, 0 <= x -> 0 <= Qfloor (inject_Z x * k)).
  { intros x Hx. change 0 with (Qfloor 0). apply Qfloor_resp_le.
    apply Qmult_le_0_compat; [|exact Hk]. change 0%Q with (inject_Z 0).
    rewrite <- Zle_Qle. exact Hx. }
  split.
  - intros rl'. cbv zeta. repeat split.
  - cbv zeta. split.
    + apply (admitted_at_same_instant fuel now s m); auto;
        repeat split; simpl; try reflexivity; apply Qle_refl.
    + apply (admitted_at_same_instant fuel t0); auto;
        repeat split; simpl; try reflexivity; apply Qle_refl.
Qed.

Lemma reset_drops_burst_capacity_witness :
  0 <= 2 /\ 0 <= 1000 /\ (0 <= 3 # 2)%Q /\
  ((forall rl' : RateLimiter,
      let r := reset 0 rl' in
      rl_config r = rl_config rl' /\
      capacity (perSecondBucket r) = maxPerSecond (rl_config rl') /\
      tokens (perSecondBucket r) = maxPerSecond (rl_config rl') /\
      capacity (perMinuteBucket r) = maxPerMinute (rl_config rl') /\
      tokens (perMinuteBucket r) = maxPerMinute (rl_config rl')) /\
   (let rl := newRateLimiter
                (mkRateLimitConfig (Some (inject_Z 2)) (Some (inject_Z 1000)) (Some true)
                   (Some true) (Some (3 # 2))) 0 in
    Z.of_nat (admitted 5 0 (reset 0 rl)) = Z.min (Z.of_nat 5) (Z.min 2 1000) /\
    Z.of_nat (admitted 5 0 rl)
      = Z.min (Z.of_nat 5)
          (Z.min (Qfloor (inject_Z 2 * (3 # 2))) (Qfloor (inject_Z 1000 * (3 # 2)))))).
Proof.
  split; [lia|]. split; [lia|]. split; [vm_compute; discriminate|].
  apply reset_drops_burst_capacity; [lia | lia | vm_compute; discriminate].
Defined.

(* ================================================================== *)
(** * Backoff: properties *)

(** Claim C6: [calculateBackoff] caps [initialDelay * multiplier^attempt]
    at [maxDelay]; without jitter it returns the floor of that capped delay,
    which for [initialDelay = 1000], [multiplier = 2], [maxDelay = 5000]
    gives 1000, 2000, 4000, 5000 for attempts 0 to 3; with jitter and
    [Math.random() = r] in [0, 1) it adds [j = delay/4 * (2r - 1)], whose
    size is at most a quarter of the delay, clamps at 0 and floors. *)
Theorem calculateBackoff_spec (attempt : nat) (initialDelay maxDelay multiplier r : Q)
    (Hr0 : (0 <= r)%Q) (Hr1 : (r < 1)%Q) :
  let delay := Qmin (initialDelay * multiplier ^ Z.of_nat attempt) maxDelay in
  let j := (r * (delay * (1 # 4)) * 2 - delay * (1 # 4))%Q in
  calculateBackoff attempt initialDelay maxDelay multiplier false r = Qfloor delay /\
  calculateBackoff attempt initialDelay maxDelay multiplier true r = Qfloor (Qmax 0 (delay + j)) /\
  (Qabs j <= Qabs delay * (1 # 4))%Q /\
  map (fun a => calculateBackoff a 1000 5000 2 false r) [0; 1; 2; 3]%nat
    = [1000; 2000; 4000; 5000].
Proof.
  cbv zeta. split; [reflexivity|]. split; [reflexivity|]. split; [|reflexivity].
  set (d := Qmin (initialDelay * multiplier ^ Z.of_nat attempt) maxDelay).
  setoid_replace (r * (d * (1 # 4)) * 2 - d * (1 # 4))%Q
    with (d * ((1 # 4) * (2 * r - 1)))%Q by ring.
  rewrite Qabs_Qmult, Qabs_Qmult.
  assert (A : (Qabs (2 * r - 1) <= 1)%Q) by (apply Qabs_Qle_condition; split; lra).
  assert (B : (Qabs (1 # 4) == 1 # 4)%Q) by reflexivity.
  rewrite B. pose proof (Qabs_nonneg d) as N.
  setoid_replace (Qabs d * (1 # 4))%Q with (Qabs d * ((1 # 4) * 1))%Q by ring.
  pose proof (Qabs_nonneg (2 * r - 1)) as N'.
  apply Qmult_le_compat_nonneg; split; lra.
Qed.

Lemma calculateBackoff_spec_witness :
  (0 <= 1 # 2)%Q /\ (1 # 2 < 1)%Q /\
  (let delay := Qmin (1000 * 2 ^ Z.of_nat 1) 5000 in
   let j := ((1 # 2) * (delay * (1 # 4)) * 2 - delay * (1 # 4))%Q in
   calculateBackoff 1 1000 5000 2 false (1 # 2) = Qfloor delay /\
   calculateBackoff 1 1000 5000 2 true (1 # 2) = Qfloor (Qmax 0 (delay + j)) /\
   (Qabs j <= Qabs delay * (1 # 4))%Q /\
   map (fun a => calculateBackoff a 1000 5000 2 false (1 # 2)) [0; 1; 2; 3]%nat
     = [1000; 2000; 4000; 5000]).
Proof.
  split; [vm_compute; discriminate|]. split; [reflexivity|].
  apply calculateBackoff_spec; [vm_compute; discriminate | reflexivity].
Defined.

(* ================================================================== *)
(** * Retry engine: properties *)

(** Claim C3: with [enabled = true] and [maxAttempts = 3], an operation
    that rejects with a retryable [Error] on every call is invoked exactly
    three times, and [execute] rejects with the error of the third call. *)
Theorem execute_exhausts_three_attempts {T : Type} (fn : nat -> Outcome T)
    (random : nat -> Q) (config : RetryConfig)
    (Hen : rt_enabled config = true) (Hmax : maxAttempts config = 3)
    (Hfail : forall i, exists e, fn i = Rejected (ThrownError e) /\ isRetryable e = true) :
  run_calls (execute fn random config) = 3%nat /\
  run_outcome (execute fn random config) = fn 2%nat.
Proof.
  destruct (Hfail 0%nat) as (e0 & H0 & R0).
  destruct (Hfail 1%nat) as (e1 & H1 & R1).
  destruct (Hfail 2%nat) as (e2 & H2 & R2).
  destruct config as [ma ini mx mul en jit]; simpl in Hen, Hmax; subst ma en.
  unfold execute; simpl.
  rewrite H0; simpl; rewrite R0; simpl.
  rewrite H1; simpl; rewrite R1; simpl.
  rewrite H2; simpl. split; reflexivity.
Qed.

Lemma execute_exhausts_three_attempts_witness :
  rt_enabled (retryDefaults (mkPartialRetryConfig None None None None None None)) = true /\
  maxAttempts (retryDefaults (mkPartialRetryConfig None None None None None None)) = 3 /\
  (forall i, exists e, retryableFailure i = Rejected (ThrownError e) /\ isRetryable e = true) /\
  run_calls (execute retryableFailure (fun _ => 0%Q)
               (retryDefaults (mkPartialRetryConfig None None None None None None))) = 3%nat /\
  run_outcome (execute retryableFailure (fun _ => 0%Q)
                 (retryDefaults (mkPartialRetryConfig None None None None None None)))
    = retryableFailure 2%nat.
Proof.
  assert (F : forall i, exists e, retryableFailure i = Rejected (ThrownError e) /\
                                  isRetryable e = true)
    by (intros i; eexists; split; reflexivity).
  split; [reflexivity|]. split; [reflexivity|]. split; [exact F|].
  apply execute_exhausts_three_attempts; [reflexivity | reflexivity | exact F].
Defined.

(** Claim C4: when the first call rejects with an [Error] the classifier
    [PushError.isRetryable] rejects, [execute] invokes the operation once
    and rejects with that same error, for every [maxAttempts >= 1]. *)
Theorem execute_stops_on_nonretryable {T : Type} (fn : nat -> Outcome T)
    (random : nat -> Q) (config : RetryConfig) (e : JsError)
    (Hmax : 1 <= maxAttempts config)
    (H0 : fn 0%nat = Rejected (ThrownError e)) (HR : isRetryable e = false) :
  run_calls (execute fn random config) = 1%nat /\
  run_outcome (execute fn random config) = Rejected (ThrownError e).
Proof.
  unfold execute. destruct (rt_enabled config); simpl.
  - destruct (Z.to_nat (maxAttempts config)) as [|k] eqn:Ek; [lia|].
    simpl. destruct (0 <? maxAttempts config) eqn:Elt; [|apply Z.ltb_ge in Elt; lia].
    rewrite H0; simpl. rewrite HR, orb_true_r. split; reflexivity.
  - rewrite H0. split; reflexivity.
Qed.

Lemma execute_stops_on_nonretryable_witness :
  1 <= maxAttempts (retryDefaults (mkPartialRetryConfig (Some 5) None None None None None)) /\
  (fun _ : nat => @Rejected nat (ThrownError (mkJsError "Error" "HTTP 404" None))) 0%nat
    = Rejected (ThrownError (mkJsError "Error" "HTTP 404" None)) /\
  isRetryable (mkJsError "Error" "HTTP 404" None) = false /\
  run_calls (execute (fun _ => @Rejected nat (ThrownError (mkJsError "Error" "HTTP 404" None)))
               (fun _ => 0%Q)
               (retryDefaults (mkPartialRetryConfig (Some 5) None None None None None))) = 1%nat /\
  run_outcome (execute (fun _ => @Rejected nat (ThrownError (mkJsError "Error" "HTTP 404" None)))
                 (fun _ => 0%Q)
                 (retryDefaults (mkPartialRetryConfig (Some 5) None None None None None)))
    = Rejected (ThrownError (mkJsError "Error" "HTTP 404" None)).
Proof.
  split; [simpl; lia|]. split; [reflexivity|]. split; [vm_compute; reflexivity|].
  apply execute_stops_on_nonretryable; [simpl; lia | reflexivity | vm_compute; reflexivity].
Defined.

(** Claim C9: [executeWithConfig] runs [execute] under the configuration
    merged with the override and leaves the engine with its original
    configuration, whether the run resolved or rejected; a later [execute]
    then behaves exactly as on the original engine. *)
Theorem executeWithConfig_restores_config {T : Type} (fn : nat -> Outcome T)
    (random : nat -> Q) (customConfig : PartialRetryConfig) (eng : RetryEngine) :
  let '(r, eng') := executeWithConfig fn random customConfig eng in
  r = execute fn random (mergeRetryConfig (engine_config eng) customConfig) /\
  engine_config eng' = engine_config eng /\
  (forall (U : Type) (fn2 : nat -> Outcome U) (random2 : nat -> Q),
     engineExecute fn2 random2 eng' = engineExecute fn2 random2 eng).
Proof.
  destruct eng as [c]. unfold executeWithConfig, engineExecute; simpl.
  split; [reflexivity|]. split; [reflexivity|]. intros; reflexivity.
Qed.

(* ================================================================== *)
(** * In-memory queue: properties *)

Section QueueProofs.
Context {Msg : Type}.

Lemma insertSorted_In (x z : QueueItem Msg) (l : list (QueueItem Msg)) :
  In z (insertSorted x l) <-> x = z \/ In z l.
Proof.
  induction l as [|y r IH]; simpl.
  - tauto.
  - destruct (byPriority y x <=? 0); simpl; [rewrite IH|]; tauto.
Qed.

Lemma insertSorted_length (x : QueueItem Msg) (l : list (QueueItem Msg)) :
  List.length (insertSorted x l) = S (List.length l).
Proof.
  induction l as [|y r IH]; simpl; [reflexivity|].
  destruct (byPriority y x <=? 0); simpl; [rewrite IH|]; reflexivity.
Qed.

Lemma sortByPriority_length (l : list (QueueItem Msg)) :
  List.length (sortByPriority l) = List.length l.
Proof.
  unfold sortByPriority.
  assert (G : forall acc, List.length (fold_left (fun acc x => insertSorted x acc) l acc)
                          = (List.length acc + List.length l)%nat).
  { induction l as [|x r IH]; intros acc; simpl; [lia|].
    rewrite IH, insertSorted_length. simpl. lia. }
  rewrite G. reflexivity.
Qed.

Lemma insertSorted_sorted (x : QueueItem Msg) (l : list (QueueItem Msg)) :
  StronglySorted higherFirst l -> StronglySorted higherFirst (insertSorted x l).
Proof.
  induction l as [|y r IH]; intros H; simpl.
  - repeat constructor.
  - apply StronglySorted_inv in H as [Hr Hy].
    unfold byPriority. destruct (priority x - priority y <=? 0) eqn:E.
    + apply Z.leb_le in E. constructor; [apply IH; exact Hr|].
      apply Forall_forall. intros z Hz. apply insertSorted_In in Hz as [<-|Hz].
      * unfold higherFirst. lia.
      * rewrite Forall_forall in Hy. apply Hy, Hz.
    + apply Z.leb_gt in E. constructor; [constructor; assumption|].
      constructor; [unfold higherFirst; lia|].
      rewrite Forall_forall in Hy |- *. intros z Hz.
      specialize (Hy z Hz). unfold higherFirst in *. lia.
Qed.

Lemma sortByPriority_sorted (l : list (QueueItem Msg)) :
  StronglySorted higherFirst (sortByPriority l).
Proof.
  unfold sortByPriority.
  assert (G : forall acc, StronglySorted higherFirst acc ->
            StronglySorted higherFirst (fold_left (fun acc x => insertSorted x acc) l acc)).
  { induction l as [|x r IH]; intros acc Hacc; simpl; [exact Hacc|].
    apply IH, insertSorted_sorted, Hacc. }
  apply G. constructor.
Qed.

Lemma removeFirst_incl (id : QueueId) (l l' : list (QueueItem Msg)) :
  removeFirst id l = Some l' -> forall z, In z l' -> In z l.
Proof.
  revert l'. induction l as [|x r IH]; intros l' H z Hz; simpl in H; [discriminate|].
  destruct (QueueId_eqb (item_id x) id).
  - injection H as <-. right; exact Hz.
  - destruct (removeFirst id r) as [r'|] eqn:Er; simpl in H; [|discriminate].
    injection H as <-. destruct Hz as [->|Hz]; [left; reflexivity|].
    right. apply (IH r' eq_refl z Hz).
Qed.

Lemma removeFirst_sorted (id : QueueId) (l l' : list (QueueItem Msg)) :
  StronglySorted higherFirst l -> removeFirst id l = Some l' ->
  StronglySorted higherFirst l'.
Proof.
  revert l'. induction l as [|x r IH]; intros l' Hs H; simpl in H; [discriminate|].
  apply StronglySorted_inv in Hs as [Hr Hx].
  destruct (QueueId_eqb (item_id x) id).
  - injection H as <-. exact Hr.
  - destruct (removeFirst id r) as [r'|] eqn:Er; simpl in H; [|discriminate].
    injection H as <-. constructor; [apply (IH r' Hr eq_refl)|].
    rewrite Forall_forall in Hx |- *. intros z Hz.
    apply Hx, (removeFirst_incl id r r' Er z Hz).
Qed.

Lemma stepQueue_sorted (q : InMemoryQueue Msg) (op : QueueOp Msg) :
  StronglySorted higherFirst (queue q) -> StronglySorted higherFirst (queue (stepQueue q op)).
Proof.
  intros Hs. destruct op as [m p t| |id]; simpl.
  - unfold enqueue. destruct (_ && _); simpl; [exact Hs|].
    apply sortByPriority_sorted.
  - unfold dequeue. destruct (queue q) as [|x r] eqn:E; simpl; [rewrite E; constructor|].
    apply StronglySorted_inv in Hs as [Hr _]; exact Hr.
  - unfold remove. destruct (removeFirst id (queue q)) as [l|] eqn:E; simpl; [|exact Hs].
    apply (removeFirst_sorted id (queue q) l Hs E).
Qed.

Lemma runQueue_sorted (ops : list (QueueOp Msg)) : forall q : InMemoryQueue Msg,
  StronglySorted higherFirst (queue q) -> StronglySorted higherFirst (queue (runQueue ops q)).
Proof.
  induction ops as [|op ops IH]; intros q Hs; simpl; [exact Hs|].
  apply IH, stepQueue_sorted, Hs.
Qed.
End QueueProofs.

(** Claim C7: in a queue built with [maxSize = 2], two enqueues succeed and
    the third throws the capacity error, returning the queue exactly as it
    was: still two items, the same ones. *)
Theorem enqueue_rejects_when_full {Msg : Type} (m1 m2 m3 : Msg) (p1 p2 p3 t1 t2 t3 : Z) :
  let q0 := newInMemoryQueue (Msg:=Msg) 2 in
  let q1 := snd (enqueue m1 p1 t1 q0) in
  let q2 := snd (enqueue m2 p2 t2 q1) in
  (exists id1, fst (enqueue m1 p1 t1 q0) = inr id1) /\
  (exists id2, fst (enqueue m2 p2 t2 q1) = inr id2) /\
  enqueue m3 p3 t3 q2 = (inl (QueueFull 2), q2) /\
  List.length (queue q2) = 2%nat.
Proof.
  cbv zeta.
  assert (L : List.length (queue (snd (enqueue m2 p2 t2 (snd (enqueue m1 p1 t1
                (newInMemoryQueue (Msg:=Msg) 2)))))) = 2%nat).
  { simpl. rewrite sortByPriority_length. reflexivity. }
  split; [eexists; reflexivity|]. split; [eexists; reflexivity|]. split; [|exact L].
  unfold enqueue at 1. rewrite L. simpl. reflexivity.
Qed.

(** Claim C8: after any sequence of enqueues, dequeues and removals on a
    fresh queue, [dequeue()] reports empty exactly on an empty queue, and
    otherwise removes and returns the front item, whose priority is at least
    that of every item left (so with distinct priorities it is the unique
    highest).  Enqueuing priorities 1, 5, 3 and dequeuing until empty gives
    the items of priority 5, 3 and 1, in that order. *)
Theorem dequeue_returns_highest_priority {Msg : Type} (ops : list (QueueOp Msg)) (ms : Z)
    (a b c : Msg) (t1 t2 t3 : Z) :
  (let q := runQueue ops (newInMemoryQueue ms) in
   match dequeue q with
   | (None, q') => queue q = [] /\ q' = q
   | (Some x, q') =>
       queue q = x :: queue q' /\ Forall (fun y => priority y <= priority x) (queue q')
   end) /\
  map (fun it => (message it, priority it))
    (dequeueAll 4 (runQueue [OpEnqueue a 1 t1; OpEnqueue b 5 t2; OpEnqueue c 3 t3]
                    (newInMemoryQueue 0)))
  = [(b, 5); (c, 3); (a, 1)].
Proof.
  split; [|reflexivity]. cbv zeta.
  pose proof (runQueue_sorted ops (newInMemoryQueue ms) (SSorted_nil _)) as Hs.
  unfold dequeue. destruct (queue (runQueue ops (newInMemoryQueue ms))) as [|x r] eqn:E.
  - split; reflexivity.
  - simpl. split; [reflexivity|].
    apply StronglySorted_inv in Hs as [_ Hx]. exact Hx.
Qed.

(* ================================================================== *)
(** * Chunking: properties *)

Lemma chunk_count_none (len n k : Z) :
  0 < k -> len <= n -> Z.max 0 ((len - n + k - 1) / k) = 0.
Proof.
  intros Hk Hle. assert ((len - n + k - 1) / k < 1) by (apply Z.div_lt_upper_bound; lia).
  lia.
Qed.

Lemma chunkLoop_spec {A} (array : list A) (k : nat) (Hk : (1 <= k)%nat) :
  forall fuel n acc, (List.length array - n <= fuel)%nat ->
  exists rest,
    chunkLoop array (Z.of_nat k) fuel (Z.of_nat n) acc = List.app acc rest /\
    List.concat rest = skipn n array /\
    Forall (fun c => c <> [] /\ (List.length c <= k)%nat) rest /\
    Forall (fun c => List.length c = k) (removelast rest) /\
    Z.of_nat (List.length rest)
      = Z.max 0 ((Z.of_nat (List.length array) - Z.of_nat n + Z.of_nat k - 1) / Z.of_nat k).
Proof.
  induction fuel as [|f IH]; intros n acc Hf.
  - exists []. simpl. rewrite app_nil_r, skipn_all2 by lia.
    rewrite chunk_count_none by lia. repeat split; constructor.
  - simpl. destruct (Z.of_nat n <? Z.of_nat (List.length array)) eqn:E.
    + apply Z.ltb_lt in E.
      set (c := slice array (Z.of_nat n) (Z.of_nat n + Z.of_nat k)).
      assert (Ec : c = firstn k (skipn n array)).
      { unfold c, slice. rewrite <- Nat2Z.inj_add, !Nat2Z.id. f_equal. lia. }
      rewrite <- Nat2Z.inj_add.
      destruct (IH (n + k)%nat (List.app acc [c])) as (rest & R1 & R2 & R3 & R4 & R5); [lia|].
      exists (c :: rest). rewrite R1, <- app_assoc. split; [reflexivity|].
      assert (Ls : List.length (skipn n array) = (List.length array - n)%nat)
        by apply length_skipn.
      split.
      { simpl. rewrite R2, Ec, Nat.add_comm, <- skipn_skipn. apply firstn_skipn. }
      split.
      { constructor; [|exact R3]. rewrite Ec. split.
        - intros H0. apply (f_equal (@List.length A)) in H0.
          rewrite length_firstn, Ls in H0. simpl in H0. lia.
        - apply firstn_le_length. }
      split.
      { destruct rest as [|r1 rs]; [constructor|].
        change (removelast (c :: r1 :: rs)) with (c :: removelast (r1 :: rs)).
        constructor; [|exact R4].
        inversion R3 as [|? ? [Hr1 _] _]; subst.
        assert (Hne : skipn (n + k) array <> []).
        { rewrite <- R2. simpl. destruct r1; [contradiction|discriminate]. }
        assert (Lnk : (n + k < List.length array)%nat).
        { destruct (Nat.lt_ge_cases (n + k) (List.length array)) as [|Hge]; [assumption|].
          exfalso. apply Hne, skipn_all2. exact Hge. }
        rewrite Ec, length_firstn, Ls. lia. }
      simpl List.length. rewrite Nat2Z.inj_succ, R5, Nat2Z.inj_add.
      set (x := Z.of_nat (List.length array) - Z.of_nat n - 1).
      assert (Hx : 0 <= x) by (unfold x; lia).
      replace (Z.of_nat (List.length array) - (Z.of_nat n + Z.of_nat k) + Z.of_nat k - 1)
        with x by (unfold x; lia).
      replace (Z.of_nat (List.length array) - Z.of_nat n + Z.of_nat k - 1)
        with (x + 1 * Z.of_nat k) by (unfold x; lia).
      rewrite Z_div_plus_full by lia.
      assert (0 <= x / Z.of_nat k) by (apply Z.div_pos; lia). lia.
    + apply Z.ltb_ge in E. exists []. simpl. rewrite app_nil_r, skipn_all2 by lia.
      rewrite chunk_count_none by lia. repeat split; constructor.
Qed.

Lemma chunk_core {A} (array : list A) (k : Z) :
  0 < k ->
  exists chunks,
    chunk array k = inr chunks /\
    List.concat chunks = array /\
    Forall (fun c => c <> [] /\ Z.of_nat (List.length c) <= k) chunks /\
    Forall (fun c => Z.of_nat (List.length c) = k) (removelast chunks) /\
    Z.of_nat (List.length chunks) = (Z.of_nat (List.length array) + k - 1) / k.
Proof.
  intros Hk. unfold chunk.
  replace (k <=? 0) with false by (symmetry; apply Z.leb_gt; lia).
  destruct array as [|a r] eqn:Ea.
  - exists []. simpl. rewrite Z.div_small by lia. repeat split; constructor.
  - rewrite <- Ea.
    destruct (chunkLoop_spec array (Z.to_nat k) ltac:(lia) (List.length array) 0 [])
      as (rest & R1 & R2 & R3 & R4 & R5); [lia|].
    rewrite Z2Nat.id in R1, R5 by lia. simpl in R1.
    exists rest. rewrite R1. split; [reflexivity|]. split; [exact R2|].
    split.
    { eapply Forall_impl; [|exact R3]. intros c [H1 H2]. split; [exact H1|]. lia. }
    split.
    { eapply Forall_impl; [|exact R4]. intros c H. rewrite H. apply Z2Nat.id. lia. }
    rewrite R5. rewrite Z.sub_0_r. apply Z.max_r, Z.div_pos; [rewrite Ea; simpl List.length; lia | lia].
Qed.

Lemma chunkIntoN_size (len n : Z) :
  0 < len -> 0 < n ->
  let s := Qceiling (inject_Z len / inject_Z n) in
  0 < s /\ len <= s * n.
Proof.
  intros Hl Hn s.
  assert (Hn' : (0 < inject_Z n)%Q) by (unfold Qlt; simpl; lia).
  assert (Hl' : (0 < inject_Z len)%Q) by (unfold Qlt; simpl; lia).
  assert (Hc : (inject_Z len / inject_Z n <= inject_Z s)%Q) by apply Qle_ceiling.
  assert (Hpos : (0 < inject_Z len / inject_Z n)%Q).
  { apply Qlt_shift_div_l; [exact Hn'|]. lra. }
  split.
  - assert (H0 : (0 < inject_Z s)%Q) by lra. unfold Qlt in H0; simpl in H0; lia.
  - rewrite Zle_Qle, inject_Z_mult.
    assert (E : (inject_Z len == inject_Z n * (inject_Z len / inject_Z n))%Q)
      by (symmetry; apply Qmult_div_r; lra).
    rewrite E, (Qmult_comm (inject_Z n)). apply Qmult_le_compat_r; lra.
Qed.

(** Extra: [chunk(array, chunkSize)] with [chunkSize > 0] does not throw and
    partitions [array]: the chunks, concatenated in order, give back the
    array; each chunk is nonempty and holds at most [chunkSize] elements;
    every chunk but the last holds exactly [chunkSize]; and there are
    [ceil(length / chunkSize)] of them. *)
Theorem chunk_partitions {A} (array : list A) (chunkSize : Z) (Hk : 0 < chunkSize) :
  exists chunks,
    chunk array chunkSize = inr chunks /\
    List.concat chunks = array /\
    Forall (fun c => c <> [] /\ Z.of_nat (List.length c) <= chunkSize) chunks /\
    Forall (fun c => Z.of_nat (List.length c) = chunkSize) (removelast chunks) /\
    Z.of_nat (List.length chunks)
      = (Z.of_nat (List.length array) + chunkSize - 1) / chunkSize.
Proof. exact (chunk_core array chunkSize Hk). Qed.

Lemma chunk_partitions_witness :
  0 < 3 /\
  exists chunks,
    chunk [1; 2; 3; 4; 5; 6; 7] 3 = inr chunks /\
    List.concat chunks = [1; 2; 3; 4; 5; 6; 7] /\
    Forall (fun c => c <> [] /\ Z.of_nat (List.length c) <= 3) chunks /\
    Forall (fun c => Z.of_nat (List.length c) = 3) (removelast chunks) /\
    Z.of_nat (List.length chunks) = (Z.of_nat (List.length [1; 2; 3; 4; 5; 6; 7]) + 3 - 1) / 3.
Proof. split; [lia | apply (chunk_partitions [1; 2; 3; 4; 5; 6; 7] 3); lia]. Defined.

(** Extra: [chunkIntoN(array, numChunks)] with [numChunks > 0] does not
    throw, splits [array] into nonempty chunks that concatenate back to it,
    and produces at most [numChunks] of them (possibly fewer). *)
Theorem chunkIntoN_at_most_n {A} (array : list A) (numChunks : Z) (Hn : 0 < numChunks) :
  exists chunks,
    chunkIntoN array numChunks = inr chunks /\
    List.concat chunks = array /\
    Forall (fun c => c <> []) chunks /\
    Z.of_nat (List.length chunks) <= numChunks.
Proof.
  unfold chunkIntoN. replace (numChunks <=? 0) with false by (symmetry; apply Z.leb_gt; lia).
  destruct array as [|a r] eqn:Ea.
  - exists []. repeat split; [constructor | simpl; lia].
  - rewrite <- Ea.
    assert (Hl : 0 < Z.of_nat (List.length array)) by (rewrite Ea; simpl List.length; lia).
    destruct (chunkIntoN_size _ _ Hl Hn) as [Hs Hsn].
    set (s := Qceiling (inject_Z (Z.of_nat (List.length array)) / inject_Z numChunks)) in *.
    destruct (chunk_core array s Hs) as (chunks & C1 & C2 & C3 & _ & C5).
    exists chunks. split; [exact C1|]. split; [exact C2|]. split.
    + eapply Forall_impl; [|exact C3]. intros c [H _]. exact H.
    + rewrite C5.
      assert ((Z.of_nat (List.length array) + s - 1) / s < numChunks + 1); [|lia].
      apply Z.div_lt_upper_bound; [lia|]. rewrite Z.mul_add_distr_l. lia.
Qed.

Lemma chunkIntoN_at_most_n_witness :
  0 < 5 /\
  exists chunks,
    chunkIntoN [1; 2; 3; 4; 5; 6; 7] 5 = inr chunks /\
    List.concat chunks = [1; 2; 3; 4; 5; 6; 7] /\
    Forall (fun c => c <> []) chunks /\
    Z.of_nat (List.length chunks) <= 5.
Proof. split; [lia | apply (chunkIntoN_at_most_n [1; 2; 3; 4; 5; 6; 7] 5); lia]. Defined.

(* ================================================================== *)
(** * Retry engine and withBackoff: properties *)

Section RetryLoopFacts.
Context {T : Type}.
Variable fn : nat -> Outcome T.
Variable random : nat -> Q.
Variable config : RetryConfig.

Lemma retryLoop_spec :
  forall fuel attempt lastError calls total,
  0 <= attempt < maxAttempts config ->
  Z.of_nat calls = attempt ->
  Z.of_nat fuel = maxAttempts config - attempt ->
  let r := retryLoop fn random config fuel attempt lastError calls total in
  (calls < run_calls r <= Z.to_nat (maxAttempts config))%nat /\
  (forall i, (calls <= i < run_calls r - 1)%nat ->
     exists t, fn i = Rejected t /\ isRetryable (toError t) = true) /\
  (forall v, fn (run_calls r - 1)%nat = Resolved v -> run_outcome r = Resolved v) /\
  (forall t, fn (run_calls r - 1)%nat = Rejected t ->
     run_outcome r = Rejected (ThrownError (toError t)) /\
     (isRetryable (toError t) = false \/ run_calls r = Z.to_nat (maxAttempts config))) /\
  run_totalDelayMs r =
    fold_left (fun acc i => acc + calculateBackoff i (initialDelayMs config) (maxDelayMs config)
                                   (backoffMultiplier config) (useJitter config) (random i))
      (seq calls (run_calls r - 1 - calls)) total.
Proof.
  induction fuel as [|f IH]; intros attempt lastError calls total Ha Hc Hf r.
  - lia.
  - subst r. simpl. replace (attempt <? maxAttempts config) with true by (symmetry; apply Z.ltb_lt; lia).
    destruct (fn calls) as [v|t] eqn:Efn.
    + simpl. split; [lia|]. split; [intros; lia|]. split.
      { intros ? H. rewrite Nat.sub_0_r, Efn in H. inversion H; reflexivity. }
      split; [|rewrite Nat.sub_0_r, Nat.sub_diag; reflexivity]. intros ? H. rewrite Nat.sub_0_r, Efn in H. discriminate.
    + destruct ((attempt =? maxAttempts config - 1) || negb (isRetryable (toError t))) eqn:Ec.
      * simpl. split; [lia|]. split; [intros; lia|]. split.
        { intros ? H. rewrite Nat.sub_0_r, Efn in H. discriminate. }
        split; [|rewrite Nat.sub_0_r, Nat.sub_diag; reflexivity]. intros ? H. rewrite Nat.sub_0_r, Efn in H. inversion H; subst.
        split; [reflexivity|].
        apply orb_true_iff in Ec. destruct Ec as [E|E].
        -- right. apply Z.eqb_eq in E. lia.
        -- left. apply negb_true_iff in E. exact E.
      * apply orb_false_iff in Ec. destruct Ec as [E1 E2].
        apply Z.eqb_neq in E1. apply negb_false_iff in E2.
        destruct (IH (attempt + 1) (ThrownError (toError t)) (S calls)
                    (total + calculateBackoff (Z.to_nat attempt) (initialDelayMs config)
                       (maxDelayMs config) (backoffMultiplier config) (useJitter config)
                       (random (Z.to_nat attempt))))
          as (B & Rs & Ok & Ko & Tot); [lia | lia | lia |].
        set (r := retryLoop fn random config f (attempt + 1) (ThrownError (toError t)) (S calls) _)
          in *.
        split; [lia|]. split.
        { intros i Hi. destruct (Nat.eq_dec i calls) as [->|Hne].
          - exists t. split; [exact Efn | exact E2].
          - apply Rs. lia. }
        split; [exact Ok|]. split; [exact Ko|].
        rewrite Tot. replace (run_calls r - 1 - calls)%nat with (S (run_calls r - 1 - S calls))
          by lia.
        simpl. replace (Z.to_nat attempt) with calls by lia. reflexivity.
Qed.

End RetryLoopFacts.

Section WithBackoffFacts.
Context {T : Type}.
Variable fn : nat -> Outcome T.
Variable random : nat -> Q.

Lemma withBackoffLoop_retryLoop (config : RetryConfig) :
  useJitter config = true ->
  forall fuel attempt lastError calls slept,
  withBackoffLoop fn random (maxAttempts config) (initialDelayMs config) (maxDelayMs config)
    (backoffMultiplier config) isRetryable fuel attempt lastError calls slept
  = retryLoop fn random config fuel attempt lastError calls slept.
Proof.
  intros Hj. induction fuel as [|f IH]; intros attempt lastError calls slept; [reflexivity|].
  simpl. destruct (attempt <? maxAttempts config); [|reflexivity].
  destruct (fn calls); [reflexivity|]. rewrite Hj, IH. reflexivity.
Qed.

End WithBackoffFacts.

(** Extra: an enabled [execute(fn)] with [maxAttempts >= 1] invokes [fn]
    between 1 and [maxAttempts] times; every invocation but the last
    rejected with a retryable error; it settles as the last invocation did
    (a rejection converted by [toError]), and a final rejection is either
    not retryable or the [maxAttempts]-th one; [ctx.totalDelayMs] is the sum
    of the backoff delays of the attempts before the last.  The [throw] after
    the loop is never reached. *)
Theorem execute_settles_as_last_call {T} (fn : nat -> Outcome T) (random : nat -> Q)
    (config : RetryConfig)
    (Hen : rt_enabled config = true) (Hmax : 1 <= maxAttempts config) :
  let r := execute fn random config in
  (1 <= run_calls r <= Z.to_nat (maxAttempts config))%nat /\
  (forall i, (i < run_calls r - 1)%nat ->
     exists t, fn i = Rejected t /\ isRetryable (toError t) = true) /\
  (forall v, fn (run_calls r - 1)%nat = Resolved v -> run_outcome r = Resolved v) /\
  (forall t, fn (run_calls r - 1)%nat = Rejected t ->
     run_outcome r = Rejected (ThrownError (toError t)) /\
     (isRetryable (toError t) = false \/ run_calls r = Z.to_nat (maxAttempts config))) /\
  run_totalDelayMs r =
    fold_left (fun acc i => acc + calculateBackoff i (initialDelayMs config) (maxDelayMs config)
                                   (backoffMultiplier config) (useJitter config) (random i))
      (seq 0 (run_calls r - 1)) 0.
Proof.
  intros r. unfold r, execute. rewrite Hen. simpl negb. cbv iota.
  destruct (retryLoop_spec fn random config (Z.to_nat (maxAttempts config)) 0 ThrownUndefined
              0%nat 0) as (B & Rs & Ok & Ko & Tot); [lia | reflexivity | lia |].
  split; [lia|]. split; [intros i Hi; apply Rs; lia|]. split; [exact Ok|]. split; [exact Ko|].
  rewrite Tot, Nat.sub_0_r. reflexivity.
Qed.

Lemma execute_settles_as_last_call_witness :
  rt_enabled (retryDefaults (mkPartialRetryConfig None None None None None None)) = true /\
  1 <= maxAttempts (retryDefaults (mkPartialRetryConfig None None None None None None)) /\
  let config := retryDefaults (mkPartialRetryConfig None None None None None None) in
  let r := execute retryableFailure (fun _ => 0%Q) config in
  (1 <= run_calls r <= Z.to_nat (maxAttempts config))%nat /\
  (forall i, (i < run_calls r - 1)%nat ->
     exists t, retryableFailure i = Rejected t /\ isRetryable (toError t) = true) /\
  (forall v, retryableFailure (run_calls r - 1)%nat = Resolved v -> run_outcome r = Resolved v) /\
  (forall t, retryableFailure (run_calls r - 1)%nat = Rejected t ->
     run_outcome r = Rejected (ThrownError (toError t)) /\
     (isRetryable (toError t) = false \/ run_calls r = Z.to_nat (maxAttempts config))) /\
  run_totalDelayMs r =
    fold_left (fun acc i => acc + calculateBackoff i (initialDelayMs config) (maxDelayMs config)
                                   (backoffMultiplier config) (useJitter config) 0%Q)
      (seq 0 (run_calls r - 1)) 0.
Proof.
  split; [reflexivity|]. split; [vm_compute; discriminate|].
  exact (execute_settles_as_last_call retryableFailure (fun _ => 0%Q)
           (retryDefaults (mkPartialRetryConfig None None None None None None))
           eq_refl ltac:(vm_compute; discriminate)).
Defined.

(** Extra: an enabled [execute(fn)] with [maxAttempts <= 0] never invokes
    [fn] and rejects with [undefined] (the unassigned [lastError] thrown after
    the loop), having slept 0 ms. *)
Theorem execute_without_attempts_throws_undefined {T} (fn : nat -> Outcome T)
    (random : nat -> Q) (config : RetryConfig)
    (Hen : rt_enabled config = true) (Hmax : maxAttempts config <= 0) :
  execute fn random config = mkExecRun (Rejected ThrownUndefined) 0 0.
Proof.
  unfold execute. rewrite Hen. simpl negb. cbv iota.
  replace (Z.to_nat (maxAttempts config)) with 0%nat by lia. reflexivity.
Qed.

Lemma execute_without_attempts_throws_undefined_witness :
  rt_enabled (retryDefaults (mkPartialRetryConfig (Some 0) None None None None None)) = true /\
  maxAttempts (retryDefaults (mkPartialRetryConfig (Some 0) None None None None None)) <= 0 /\
  execute retryableFailure (fun _ => 0%Q)
    (retryDefaults (mkPartialRetryConfig (Some 0) None None None None None))
  = mkExecRun (Rejected ThrownUndefined) 0 0.
Proof.
  split; [reflexivity|]. split; [simpl; lia|].
  apply execute_without_attempts_throws_undefined; [reflexivity | simpl; lia].
Defined.

(** Extra: [withBackoff(fn, maxAttempts, initialDelayMs, maxDelayMs,
    multiplier, PushError.isRetryable)] runs exactly as an enabled
    [RetryEngine.execute(fn)] whose configuration has those numbers and
    [useJitter = true]: the same invocations, the same outcome and the same
    total sleep. *)
Theorem withBackoff_is_execute {T} (fn : nat -> Outcome T) (random : nat -> Q)
    (config : RetryConfig)
    (Hen : rt_enabled config = true) (Hj : useJitter config = true) :
  withBackoff fn random (maxAttempts config) (initialDelayMs config) (maxDelayMs config)
    (backoffMultiplier config) isRetryable
  = execute fn random config.
Proof.
  unfold withBackoff, execute. rewrite Hen. simpl negb. cbv iota.
  apply withBackoffLoop_retryLoop. exact Hj.
Qed.

Lemma withBackoff_is_execute_witness :
  rt_enabled (retryDefaults (mkPartialRetryConfig None None None None None None)) = true /\
  useJitter (retryDefaults (mkPartialRetryConfig None None None None None None)) = true /\
  withBackoff retryableFailure (fun _ => 0%Q) 3 1000 30000 2 isRetryable
  = execute retryableFailure (fun _ => 0%Q)
      (retryDefaults (mkPartialRetryConfig None None None None None None)).
Proof.
  split; [reflexivity|]. split; [reflexivity|].
  exact (withBackoff_is_execute retryableFailure (fun _ => 0%Q)
           (retryDefaults (mkPartialRetryConfig None None None None None None))
           eq_refl eq_refl).
Defined.

(* ================================================================== *)
(** * Rate limiter: waiting, capacity and status *)



Lemma getWaitTime_shape (count : Q) (now : Z) (b : TokenBucket) :
  capacity (snd (getWaitTime count now b)) = capacity b /\
  refillRate (snd (getWaitTime count now b)) = refillRate b.
Proof. unfold getWaitTime. destruct (Qle_bool _ _); split; reflexivity. Qed.

Lemma acquire_shape (count : Q) (now : Z) (rl : RateLimiter) :
  let rl' := snd (acquire count now rl) in
  rl_config rl' = rl_config rl /\
  capacity (perSecondBucket rl') = capacity (perSecondBucket rl) /\
  refillRate (perSecondBucket rl') = refillRate (perSecondBucket rl) /\
  capacity (perMinuteBucket rl') = capacity (perMinuteBucket rl) /\
  refillRate (perMinuteBucket rl') = refillRate (perMinuteBucket rl).
Proof.
  intros rl'. unfold rl', acquire.
  destruct (negb (rl_enabled (rl_config rl))); [repeat split|].
  pose proof (tryConsume_level count now (perSecondBucket rl)) as (_ & _ & _ & C1 & R1).
  pose proof (tryConsume_level count now (perMinuteBucket rl)) as (_ & _ & _ & C2 & R2).
  destruct (tryConsume count now (perSecondBucket rl)) as [c1 ps1].
  destruct (tryConsume count now (perMinuteBucket rl)) as [c2 pm1].
  simpl in C1, R1, C2, R2.
  destruct (c1 && c2); [simpl; repeat split; assumption|].
  pose proof (getWaitTime_shape count now ps1) as [C3 R3].
  pose proof (getWaitTime_shape count now pm1) as [C4 R4].
  destruct (getWaitTime count now ps1) as [w1 ps2].
  destruct (getWaitTime count now pm1) as [w2 pm2].
  simpl in *. repeat split; congruence.
Qed.


Lemma acquire_over_capacity_fails (count : Q) (now : Z) (rl : RateLimiter) :
  rl_enabled (rl_config rl) = true ->
  (capacity (perSecondBucket rl) < count \/ capacity (perMinuteBucket rl) < count)%Q ->
  fst (fst (acquire count now rl)) = false.
Proof.
  intros Hen Hc. unfold acquire. rewrite Hen. simpl.
  pose proof (tryConsume_level count now (perSecondBucket rl)) as (F1 & _).
  pose proof (tryConsume_level count now (perMinuteBucket rl)) as (F2 & _).
  assert (N : forall b, (capacity b < count)%Q -> Qle_bool count (refilledLevel now b) = false).
  { intros b Hb. apply not_true_iff_false. intros E. apply Qle_bool_iff in E.
    pose proof (refilledLevel_le_capacity now b). lra. }
  destruct (tryConsume count now (perSecondBucket rl)) as [c1 ps1].
  destruct (tryConsume count now (perMinuteBucket rl)) as [c2 pm1].
  simpl in F1, F2.
  assert (c1 && c2 = false) as ->.
  { destruct Hc as [Hc|Hc]; [rewrite F1, N by exact Hc | rewrite F2, N by exact Hc];
      [reflexivity | apply andb_false_r]. }
  destruct (getWaitTime count now ps1), (getWaitTime count now pm1). reflexivity.
Qed.





(** Extra: on an enabled limiter, [acquire(count)] with [count] above the
    capacity of either bucket fails at every instant, so
    [waitAndAcquire(count)] never returns, however many times it waits. *)
Theorem waitAndAcquire_never_returns_over_capacity (late : nat -> Z) (count : Q)
    (rl : RateLimiter)
    (Hen : rl_enabled (rl_config rl) = true)
    (Hc : (capacity (perSecondBucket rl) < count \/ capacity (perMinuteBucket rl) < count)%Q) :
  forall fuel now, waitAndAcquire late fuel count now rl = None.
Proof.
  unfold waitAndAcquire. generalize 0%nat.
  intros i fuel. revert i rl Hen Hc. induction fuel as [|f IH]; intros i rl Hen Hc now;
    [reflexivity|].
  simpl.
  pose proof (acquire_over_capacity_fails count now rl Hen Hc) as F.
  pose proof (acquire_shape count now rl) as (S1 & S2 & _ & S4 & _).
  destruct (acquire count now rl) as [[ok w] rl'].
  simpl in F, S1, S2, S4. subst ok.
  apply IH; [congruence|]. rewrite S2, S4. exact Hc.
Qed.

Lemma waitAndAcquire_never_returns_over_capacity_witness :
  let rl := newRateLimiter (mkRateLimitConfig None None None None None) 0 in
  rl_enabled (rl_config rl) = true /\
  (capacity (perSecondBucket rl) < 200 \/ capacity (perMinuteBucket rl) < 200)%Q /\
  forall fuel now, waitAndAcquire (fun _ => 0) fuel 200 now rl = None.
Proof.
  intros rl.
  assert (H1 : rl_enabled (rl_config rl) = true) by reflexivity.
  assert (H2 : (capacity (perSecondBucket rl) < 200 \/ capacity (perMinuteBucket rl) < 200)%Q)
    by (left; vm_compute; reflexivity).
  split; [exact H1|]. split; [exact H2|].
  exact (waitAndAcquire_never_returns_over_capacity (fun _ => 0) 200 rl H1 H2).
Defined.

(* ================================================================== *)
(** * PushError.from: properties *)

(** Extra: [PushError.from(error)] always yields a [PushError] whose message
    is the [Error]'s message or [String(error)]; it is retryable exactly when
    [error] is an [Error] that [isRetryable] accepts (a thrown non-[Error]
    is never retryable, whatever its text); and converting the result again
    returns it unchanged. *)
Theorem pushErrorFrom_classifies (v : Thrown) :
  err_pushRetryable (pushErrorFrom v) = Some (isRetryable (pushErrorFrom v)) /\
  err_message (pushErrorFrom v) = err_message (toError v) /\
  isRetryable (pushErrorFrom v) =
    match v with ThrownError e => isRetryable e | _ => false end /\
  pushErrorFrom (ThrownError (pushErrorFrom v)) = pushErrorFrom v.
Proof.
  destruct v as [e|s|]; simpl; [|repeat split; reflexivity..].
  unfold isRetryable at 1 3.
  destruct (err_pushRetryable e) as [b|] eqn:E; simpl.
  - rewrite E. repeat split. unfold isRetryable. rewrite E. reflexivity.
  - repeat split.
Qed.

(* ================================================================== *)
(** * In-memory queue: the remaining methods *)

Section QueueMethodProofs.
Context {Msg : Type}.

Lemma QueueId_eqb_eq (a b : QueueId) : QueueId_eqb a b = true <-> a = b.
Proof.
  destruct a as [ca ta], b as [cb tb]. unfold QueueId_eqb; simpl.
  rewrite andb_true_iff, Nat.eqb_eq, Z.eqb_eq. split.
  - intros [-> ->]; reflexivity.
  - intros H; injection H as -> ->; split; reflexivity.
Qed.

Lemma dequeueBatchLoop_spec :
  forall fuel i count (q : InMemoryQueue Msg) items,
  (List.length (queue q) <= fuel)%nat ->
  dequeueBatchLoop fuel i count q items =
    (List.app items (firstn (Z.to_nat (count - i)) (queue q)),
     mkInMemoryQueue (skipn (Z.to_nat (count - i)) (queue q)) (maxSize q) (idCounter q)).
Proof.
  induction fuel as [|f IH]; intros i count [l ms c] items Hf; simpl in *.
  - destruct l; [|simpl in Hf; lia]. rewrite firstn_nil, skipn_nil, app_nil_r. reflexivity.
  - destruct l as [|x r]; simpl.
    + rewrite andb_false_r, firstn_nil, skipn_nil, app_nil_r. reflexivity.
    + destruct (i <? count) eqn:E; simpl.
      * apply Z.ltb_lt in E. unfold dequeue; simpl.
        rewrite IH by (simpl in Hf |- *; lia). simpl.
        replace (Z.to_nat (count - i)) with (S (Z.to_nat (count - (i + 1)))) by lia.
        simpl. rewrite <- app_assoc. reflexivity.
      * apply Z.ltb_ge in E.
        replace (Z.to_nat (count - i)) with 0%nat by lia. simpl.
        rewrite app_nil_r. reflexivity.
Qed.

Lemma dequeueBatch_split (count : Z) (q : InMemoryQueue Msg) :
  dequeueBatch count q =
    (firstn (Z.to_nat count) (queue q),
     mkInMemoryQueue (skipn (Z.to_nat count) (queue q)) (maxSize q) (idCounter q)).
Proof.
  unfold dequeueBatch. rewrite dequeueBatchLoop_spec by lia.
  rewrite Z.sub_0_r. reflexivity.
Qed.

Lemma skipn_preserves (P : list (QueueItem Msg) -> Prop) :
  (forall x l, P (x :: l) -> P l) -> forall n l, P l -> P (skipn n l).
Proof.
  intros Ht n. induction n as [|n IH]; intros l H; [exact H|].
  destruct l as [|x l]; [exact H|]. simpl. apply IH, (Ht x l H).
Qed.

Lemma removeFirst_split (id : QueueId) (l l' : list (QueueItem Msg)) :
  removeFirst id l = Some l' ->
  exists a x b, l = List.app a (x :: b) /\ l' = List.app a b /\ item_id x = id /\
    Forall (fun y => QueueId_eqb (item_id y) id = false) a.
Proof.
  revert l'. induction l as [|y r IH]; intros l' H; simpl in H; [discriminate|].
  destruct (QueueId_eqb (item_id y) id) eqn:E.
  - injection H as <-. exists [], y, r. apply QueueId_eqb_eq in E. repeat split; auto.
  - destruct (removeFirst id r) as [r'|]; simpl in H; [|discriminate].
    injection H as <-. destruct (IH r' eq_refl) as (a & x & b & -> & -> & Hx & Ha).
    exists (y :: a), x, b. repeat split; auto.
Qed.

Lemma removeFirst_none (id : QueueId) (l : list (QueueItem Msg)) :
  removeFirst id l = None -> Forall (fun y => QueueId_eqb (item_id y) id = false) l.
Proof.
  induction l as [|y r IH]; intros H; simpl in H; [constructor|].
  destruct (QueueId_eqb (item_id y) id) eqn:E; [discriminate|].
  destruct (removeFirst id r); simpl in H; [discriminate|]. constructor; auto.
Qed.

Lemma incrementFirst_In (id : QueueId) (l : list (QueueItem Msg)) (z : QueueItem Msg) :
  In z (incrementFirst id l) ->
  exists w, In w l /\ priority w = priority z /\ item_id w = item_id z.
Proof.
  induction l as [|x r IH]; simpl; [tauto|].
  destruct (QueueId_eqb (item_id x) id); simpl.
  - intros [E|H]; [subst z; exists x; simpl; auto|]. exists z; auto.
  - intros [E|H]; [subst z; exists x; auto|]. destruct (IH H) as (w & ? & ? & ?). exists w; auto.
Qed.

Lemma incrementFirst_ids (id : QueueId) (l : list (QueueItem Msg)) :
  map item_id (incrementFirst id l) = map item_id l.
Proof.
  induction l as [|x r IH]; simpl; [reflexivity|].
  destruct (QueueId_eqb (item_id x) id); simpl; [reflexivity|]. rewrite IH. reflexivity.
Qed.

Lemma incrementFirst_length (id : QueueId) (l : list (QueueItem Msg)) :
  List.length (incrementFirst id l) = List.length l.
Proof.
  rewrite <- (length_map item_id), incrementFirst_ids, length_map. reflexivity.
Qed.

Lemma incrementFirst_sorted (id : QueueId) (l : list (QueueItem Msg)) :
  StronglySorted higherFirst l -> StronglySorted higherFirst (incrementFirst id l).
Proof.
  induction l as [|x r IH]; intros H; simpl; [constructor|].
  apply StronglySorted_inv in H as [Hr Hx].
  destruct (QueueId_eqb (item_id x) id); constructor; auto.
  rewrite Forall_forall in Hx |- *. intros z Hz.
  destruct (incrementFirst_In id r z Hz) as (w & Hw & Hp & _).
  specialize (Hx w Hw). unfold higherFirst in *. lia.
Qed.

Lemma insertSorted_perm (x : QueueItem Msg) (l : list (QueueItem Msg)) :
  Permutation (insertSorted x l) (x :: l).
Proof.
  induction l as [|y r IH]; simpl; [reflexivity|].
  destruct (byPriority y x <=? 0); [|reflexivity].
  rewrite IH. apply perm_swap.
Qed.

Lemma sortByPriority_perm (l : list (QueueItem Msg)) :
  Permutation (sortByPriority l) l.
Proof.
  unfold sortByPriority.
  assert (G : forall acc, Permutation (fold_left (fun acc x => insertSorted x acc) l acc)
                                      (List.app acc l)).
  { induction l as [|x r IH]; intros acc; simpl; [rewrite app_nil_r; reflexivity|].
    rewrite IH, insertSorted_perm. simpl. apply Permutation_middle. }
  apply G.
Qed.

End QueueMethodProofs.

Section QueueInvariant.
Context {Msg : Type}.

Lemma stepCmd_keeps_invariant (q : InMemoryQueue Msg) (cmd : QueueCmd Msg) :
  StronglySorted higherFirst (queue q) /\ NoDup (map item_id (queue q)) /\
  Forall (fun x => (qid_counter (item_id x) <= idCounter q)%nat) (queue q) ->
  let q' := stepCmd q cmd in
  StronglySorted higherFirst (queue q') /\ NoDup (map item_id (queue q')) /\
  Forall (fun x => (qid_counter (item_id x) <= idCounter q')%nat) (queue q') /\
  maxSize q' = maxSize q.
Proof.
  intros H q'. unfold q'; clear q'. destruct q as [l ms c]. destruct H as (Hs & Hd & Hc).
  simpl in Hs, Hd, Hc.
  destruct cmd as [m p t| |n|id|id|]; simpl.
  - unfold enqueue; simpl. destruct (_ && _); simpl; [auto|].
    set (item := mkQueueItem (mkQueueId (S c) t) m p t 0).
    assert (P : Permutation (sortByPriority (List.app l [item])) (item :: l)).
    { rewrite sortByPriority_perm. symmetry. apply Permutation_cons_append. }
    split; [apply sortByPriority_sorted|]. split; [|split; [|reflexivity]].
    + apply (Permutation_NoDup (Permutation_map item_id (Permutation_sym P))). simpl.
      constructor; [|exact Hd]. intros Hin. apply in_map_iff in Hin as (y & Hy & Hin).
      rewrite Forall_forall in Hc. specialize (Hc y Hin). rewrite Hy in Hc. simpl in Hc. lia.
    + rewrite Forall_forall in Hc |- *. intros z Hz.
      apply (Permutation_in _ P) in Hz as [<-|Hz]; [simpl; lia|]. specialize (Hc z Hz). lia.
  - unfold dequeue; simpl. destruct l as [|x r]; simpl; [auto|].
    apply StronglySorted_inv in Hs as [Hs _]. inversion Hd; subst. inversion Hc; subst. auto.
  - rewrite dequeueBatch_split. simpl. split; [|split; [|split; [|reflexivity]]].
    + apply (skipn_preserves (StronglySorted higherFirst)); [|exact Hs].
      intros x r H. apply StronglySorted_inv in H. apply H.
    + apply (skipn_preserves (fun l => NoDup (map item_id l))); [|exact Hd].
      intros x r H. inversion H; assumption.
    + apply (skipn_preserves (Forall (fun x => (qid_counter (item_id x) <= c)%nat)));
        [|exact Hc].
      intros x r H. inversion H; assumption.
  - unfold remove; simpl. destruct (removeFirst id l) as [l'|] eqn:E; simpl; [|auto].
    split; [apply (removeFirst_sorted id l l' Hs E)|].
    destruct (removeFirst_split id l l' E) as (a & x & b & -> & -> & _ & _).
    split; [|split; [|reflexivity]].
    + rewrite map_app in Hd |- *. simpl in Hd. apply NoDup_remove_1 in Hd. exact Hd.
    + apply Forall_app in Hc as [Ha Hb]. inversion Hb; subst. apply Forall_app; auto.
  - unfold incrementAttempts; simpl. split; [apply incrementFirst_sorted, Hs|].
    rewrite incrementFirst_ids. split; [exact Hd|]. split; [|reflexivity].
    rewrite Forall_forall in Hc |- *. intros z Hz.
    destruct (incrementFirst_In id l z Hz) as (w & Hw & _ & Hid).
    rewrite <- Hid. apply Hc, Hw.
  - unfold clear; simpl. repeat split; constructor.
Qed.

Lemma runCmds_keeps_invariant (cmds : list (QueueCmd Msg)) :
  forall q : InMemoryQueue Msg,
  StronglySorted higherFirst (queue q) /\ NoDup (map item_id (queue q)) /\
  Forall (fun x => (qid_counter (item_id x) <= idCounter q)%nat) (queue q) ->
  let q' := runCmds cmds q in
  StronglySorted higherFirst (queue q') /\ NoDup (map item_id (queue q')) /\
  Forall (fun x => (qid_counter (item_id x) <= idCounter q')%nat) (queue q') /\
  maxSize q' = maxSize q.
Proof.
  unfold runCmds. induction cmds as [|cmd cmds IH]; intros q H; simpl.
  - destruct H as (? & ? & ?). auto.
  - destruct (stepCmd_keeps_invariant q cmd H) as (H1 & H2 & H3 & H4).
    destruct (IH (stepCmd q cmd) (conj H1 (conj H2 H3))) as (G1 & G2 & G3 & G4).
    rewrite G4, H4. auto.
Qed.

Lemma reachable_invariant (cmds : list (QueueCmd Msg)) (ms : Z) :
  let q := runCmds cmds (newInMemoryQueue ms) in
  StronglySorted higherFirst (queue q) /\ NoDup (map item_id (queue q)) /\
  Forall (fun x => (qid_counter (item_id x) <= idCounter q)%nat) (queue q) /\
  maxSize q = ms.
Proof.
  apply runCmds_keeps_invariant. simpl. repeat split; constructor.
Qed.

End QueueInvariant.

Section QueueMethodFacts.
Context {Msg : Type}.

Lemma sorted_app_before (a b : list (QueueItem Msg)) :
  StronglySorted higherFirst (List.app a b) ->
  forall x y, In x a -> In y b -> higherFirst x y.
Proof.
  induction a as [|z a IH]; intros H x y Hx Hy; [destruct Hx|].
  simpl in H. apply StronglySorted_inv in H as [H Hz].
  destruct Hx as [<-|Hx]; [|apply (IH H x y Hx Hy)].
  rewrite Forall_forall in Hz. apply Hz, in_or_app. right; exact Hy.
Qed.

Lemma insertSorted_end (y : QueueItem Msg) (acc : list (QueueItem Msg)) :
  Forall (fun z => priority y <= priority z) acc -> insertSorted y acc = List.app acc [y].
Proof.
  induction acc as [|z r IH]; intros H; simpl; [reflexivity|].
  inversion H; subst. unfold byPriority.
  replace (priority y - priority z <=? 0) with true by (symmetry; apply Z.leb_le; lia).
  rewrite IH by assumption. reflexivity.
Qed.

Lemma sortByPriority_sorted_id (l : list (QueueItem Msg)) :
  StronglySorted higherFirst l -> sortByPriority l = l.
Proof.
  unfold sortByPriority.
  assert (G : forall (l1 acc : list (QueueItem Msg)),
            StronglySorted higherFirst (List.app acc l1) ->
            fold_left (fun acc x => insertSorted x acc) l1 acc = List.app acc l1).
  { induction l1 as [|y r IH]; intros acc H; simpl; [rewrite app_nil_r; reflexivity|].
    rewrite insertSorted_end.
    - rewrite IH; [rewrite <- app_assoc; reflexivity|]. rewrite <- app_assoc. exact H.
    - apply Forall_forall. intros z Hz.
      apply (sorted_app_before acc (y :: r) H z y Hz). left; reflexivity. }
  intros H. apply (G l []). exact H.
Qed.

Lemma filter_none (f : QueueItem Msg -> bool) (l : list (QueueItem Msg)) :
  (forall z, In z l -> f z = false) -> filter f l = [].
Proof.
  induction l as [|y r IH]; intros H; simpl; [reflexivity|].
  rewrite H by (left; reflexivity). apply IH. intros z Hz. apply H. right; exact Hz.
Qed.

Lemma insertSorted_split (x : QueueItem Msg) (l : list (QueueItem Msg)) :
  StronglySorted higherFirst l ->
  insertSorted x l =
    List.app (filter (fun y => priority x <=? priority y) l)
             (x :: filter (fun y => priority y <? priority x) l).
Proof.
  induction l as [|y r IH]; intros H; simpl; [reflexivity|].
  apply StronglySorted_inv in H as [Hr Hy]. unfold byPriority.
  destruct (priority x - priority y <=? 0) eqn:E.
  - apply Z.leb_le in E.
    replace (priority x <=? priority y) with true by (symmetry; apply Z.leb_le; lia).
    replace (priority y <? priority x) with false by (symmetry; apply Z.ltb_ge; lia).
    rewrite IH by exact Hr. reflexivity.
  - apply Z.leb_gt in E.
    replace (priority x <=? priority y) with false by (symmetry; apply Z.leb_gt; lia).
    replace (priority y <? priority x) with true by (symmetry; apply Z.ltb_lt; lia).
    rewrite Forall_forall in Hy.
    rewrite (filter_none (fun y => priority x <=? priority y) r).
    2:{ intros z Hz. apply Z.leb_gt. specialize (Hy z Hz). unfold higherFirst in Hy. lia. }
    rewrite forallb_filter_id; [reflexivity|].
    apply forallb_forall. intros z Hz. apply Z.ltb_lt.
    specialize (Hy z Hz). unfold higherFirst in Hy. lia.
Qed.

End QueueMethodFacts.

Section QueueUniqueIds.
Context {Msg : Type}.

Lemma no_item_with_id (id : QueueId) (l : list (QueueItem Msg)) :
  ~ In id (map item_id l) -> forall y, In y l -> QueueId_eqb (item_id y) id = false.
Proof.
  intros H y Hy. apply not_true_iff_false. intros E. apply QueueId_eqb_eq in E.
  apply H, in_map_iff. exists y. split; assumption.
Qed.

Lemma removeFirst_unique (id : QueueId) (l : list (QueueItem Msg)) :
  NoDup (map item_id l) ->
  removeFirst id l =
    if existsb (fun x => QueueId_eqb (item_id x) id) l
    then Some (filter (fun x => negb (QueueId_eqb (item_id x) id)) l)
    else None.
Proof.
  induction l as [|x r IH]; intros Hd; simpl; [reflexivity|].
  inversion Hd as [|? ? Hn Hr]; subst.
  destruct (QueueId_eqb (item_id x) id) eqn:E; simpl.
  - apply QueueId_eqb_eq in E. subst id. f_equal. symmetry. apply forallb_filter_id.
    apply forallb_forall. intros y Hy. rewrite (no_item_with_id _ r Hn y Hy). reflexivity.
  - rewrite IH by exact Hr. destruct (existsb _ r); reflexivity.
Qed.

Lemma incrementFirst_unique (id : QueueId) (l : list (QueueItem Msg)) :
  NoDup (map item_id l) ->
  incrementFirst id l =
    map (fun x => if QueueId_eqb (item_id x) id
                  then mkQueueItem (item_id x) (message x) (priority x) (addedAt x) (S (attempts x))
                  else x) l.
Proof.
  induction l as [|x r IH]; intros Hd; simpl; [reflexivity|].
  inversion Hd as [|? ? Hn Hr]; subst.
  destruct (QueueId_eqb (item_id x) id) eqn:E.
  - f_equal. apply QueueId_eqb_eq in E. subst id. symmetry.
    rewrite <- (map_id r) at 2. apply map_ext_in. intros y Hy.
    rewrite (no_item_with_id _ r Hn y Hy). reflexivity.
  - f_equal. apply IH, Hr.
Qed.

Lemma stepCmd_within_maxSize (q : InMemoryQueue Msg) (cmd : QueueCmd Msg) :
  0 < maxSize q -> Z.of_nat (List.length (queue q)) <= maxSize q ->
  Z.of_nat (List.length (queue (stepCmd q cmd))) <= maxSize (stepCmd q cmd) /\
  maxSize (stepCmd q cmd) = maxSize q.
Proof.
  destruct q as [l ms c]. simpl. intros Hpos Hle.
  destruct cmd as [m p t| |n|id|id|]; simpl.
  - unfold enqueue; simpl. destruct ((0 <? ms) && (ms <=? Z.of_nat (List.length l))) eqn:E;
      simpl; [lia|].
    rewrite sortByPriority_length, length_app. simpl.
    apply andb_false_iff in E as [E|E]; [apply Z.ltb_ge in E; lia|].
    apply Z.leb_gt in E. lia.
  - unfold dequeue; simpl. destruct l as [|x r]; simpl in *; lia.
  - rewrite dequeueBatch_split. simpl. rewrite length_skipn. lia.
  - unfold remove; simpl. destruct (removeFirst id l) as [l'|] eqn:E; simpl; [|lia].
    destruct (removeFirst_split id l l' E) as (a & x & b & -> & -> & _ & _).
    rewrite length_app in Hle |- *. simpl in Hle. lia.
  - rewrite incrementFirst_length. lia.
  - lia.
Qed.

End QueueUniqueIds.

(** Extra: after any sequence of [enqueue], [dequeue], [dequeueBatch],
    [remove], [incrementAttempts] and [clear] calls on a new queue,
    [getAll()] lists the items by nonincreasing priority and no two of them
    share an id. *)
Theorem reachable_queue_sorted_with_unique_ids {Msg} (cmds : list (QueueCmd Msg)) (ms : Z) :
  StronglySorted higherFirst (getAll (runCmds cmds (newInMemoryQueue ms))) /\
  NoDup (map item_id (getAll (runCmds cmds (newInMemoryQueue ms)))).
Proof.
  destruct (reachable_invariant cmds ms) as (H1 & H2 & _). split; assumption.
Qed.

(** Extra: on a queue reached from a new one, a successful
    [enqueue(message, priority)] returns the id [queue-(counter+1)-now] and
    puts the new item after every item of priority at least [priority] and
    before every item of lower priority, keeping the order of the others:
    items of equal priority leave in the order they arrived. *)
Theorem enqueue_places_after_equal_priority {Msg} (cmds : list (QueueCmd Msg)) (ms : Z)
    (q : InMemoryQueue Msg) (msg : Msg) (prio now : Z)
    (Hq : q = runCmds cmds (newInMemoryQueue ms)) (Hfull : isFull q = false) :
  enqueue msg prio now q =
    (inr (mkQueueId (S (idCounter q)) now),
     mkInMemoryQueue
       (List.app (filter (fun y => prio <=? priority y) (queue q))
          (mkQueueItem (mkQueueId (S (idCounter q)) now) msg prio now 0
             :: filter (fun y => priority y <? prio) (queue q)))
       ms (S (idCounter q))).
Proof.
  destruct (reachable_invariant cmds ms) as (Hs & _ & _ & Hm). rewrite <- Hq in Hs, Hm.
  unfold isFull in Hfull. unfold enqueue. rewrite Hfull, Hm. f_equal. f_equal.
  unfold sortByPriority at 1. rewrite fold_left_app. simpl.
  change (fold_left (fun acc x => insertSorted x acc) (queue q) []) with (sortByPriority (queue q)).
  rewrite (sortByPriority_sorted_id _ Hs), insertSorted_split by exact Hs. reflexivity.
Qed.

Lemma enqueue_places_after_equal_priority_witness :
  let cmds := [CmdEnqueue 1%nat 5 0; CmdEnqueue 2%nat 3 0; CmdEnqueue 3%nat 5 1] in
  let q := runCmds cmds (newInMemoryQueue 10) in
  q = runCmds cmds (newInMemoryQueue 10) /\ isFull q = false /\
  enqueue 4%nat 5 2 q =
    (inr (mkQueueId (S (idCounter q)) 2),
     mkInMemoryQueue
       (List.app (filter (fun y => 5 <=? priority y) (queue q))
          (mkQueueItem (mkQueueId (S (idCounter q)) 2) 4%nat 5 2 0
             :: filter (fun y => priority y <? 5) (queue q)))
       10 (S (idCounter q))).
Proof.
  intros cmds q.
  assert (Hf : isFull q = false) by (vm_compute; reflexivity).
  split; [reflexivity|]. split; [exact Hf|].
  exact (enqueue_places_after_equal_priority cmds 10 q 4%nat 5 2 eq_refl Hf).
Defined.

(** Extra: a queue created with [maxSize > 0] never holds more than
    [maxSize] items, whatever methods are called on it. *)
Theorem queue_never_exceeds_maxSize {Msg} (cmds : list (QueueCmd Msg)) (ms : Z)
    (Hpos : 0 < ms) :
  Z.of_nat (size (runCmds cmds (newInMemoryQueue ms))) <= ms.
Proof.
  unfold size, runCmds.
  assert (G : forall (cs : list (QueueCmd Msg)) (q : InMemoryQueue Msg),
            0 < maxSize q -> Z.of_nat (List.length (queue q)) <= maxSize q ->
            Z.of_nat (List.length (queue (fold_left stepCmd cs q))) <= maxSize q).
  { induction cs as [|c cs IH]; intros q H1 H2; simpl; [exact H2|].
    destruct (stepCmd_within_maxSize q c H1 H2) as [H3 H4].
    rewrite <- H4. apply IH; lia. }
  apply (G cmds (newInMemoryQueue ms)); simpl; lia.
Qed.

Lemma queue_never_exceeds_maxSize_witness :
  0 < 2 /\
  Z.of_nat (size (runCmds [CmdEnqueue 1%nat 0 0; CmdEnqueue 2%nat 0 0; CmdEnqueue 3%nat 0 0]
                   (newInMemoryQueue 2))) <= 2.
Proof. split; [lia|]. apply queue_never_exceeds_maxSize. lia. Defined.

(** Extra: a queue whose [maxSize] is 0 or negative (the queue manager's
    default is 0) is never full: every [enqueue] succeeds, returns the id
    [queue-(counter+1)-now] and adds one item. *)
Theorem enqueue_unbounded_without_maxSize {Msg} (q : InMemoryQueue Msg) (msg : Msg)
    (prio now : Z) (Hms : maxSize q <= 0) :
  isFull q = false /\
  fst (enqueue msg prio now q) = inr (mkQueueId (S (idCounter q)) now) /\
  size (snd (enqueue msg prio now q)) = S (size q).
Proof.
  unfold isFull, enqueue, size.
  replace (0 <? maxSize q) with false by (symmetry; apply Z.ltb_ge; exact Hms).
  simpl. split; [reflexivity|]. split; [reflexivity|].
  rewrite sortByPriority_length, length_app. simpl. lia.
Qed.

Lemma enqueue_unbounded_without_maxSize_witness :
  maxSize (@newInMemoryQueue nat 0) <= 0 /\
  isFull (@newInMemoryQueue nat 0) = false /\
  fst (enqueue 7%nat 1 0 (newInMemoryQueue 0)) = inr (mkQueueId (S (idCounter (@newInMemoryQueue nat 0))) 0) /\
  size (snd (enqueue 7%nat 1 0 (newInMemoryQueue 0))) = S (size (@newInMemoryQueue nat 0)).
Proof.
  split; [simpl; lia|].
  apply enqueue_unbounded_without_maxSize. simpl; lia.
Defined.

(** Extra: on a queue reached from a new one, [remove(id)] returns whether
    an item with that id is queued and leaves exactly the other items, in
    their order. *)
Theorem remove_drops_exactly_that_id {Msg} (cmds : list (QueueCmd Msg)) (ms : Z) (id : QueueId) :
  let q := runCmds cmds (newInMemoryQueue ms) in
  remove id q =
    (existsb (fun x => QueueId_eqb (item_id x) id) (queue q),
     mkInMemoryQueue (filter (fun x => negb (QueueId_eqb (item_id x) id)) (queue q))
       ms (idCounter q)).
Proof.
  intros q. destruct (reachable_invariant cmds ms) as (_ & Hd & _ & Hm). fold q in Hd, Hm.
  unfold remove. rewrite (removeFirst_unique id _ Hd).
  destruct (existsb _ (queue q)) eqn:E; [rewrite Hm; reflexivity|].
  destruct q as [l m c]. simpl in *. subst m. f_equal. f_equal. symmetry.
  apply forallb_filter_id, forallb_forall. intros y Hy.
  apply negb_true_iff. apply not_true_iff_false. intros Ey.
  assert (existsb (fun x => QueueId_eqb (item_id x) id) l = true)
    by (apply existsb_exists; exists y; split; assumption).
  congruence.
Qed.

(** Extra: on a queue reached from a new one, [incrementAttempts(id)] adds
    one to the [attempts] of the item with that id, if any, and changes
    nothing else. *)
Theorem incrementAttempts_bumps_that_item {Msg} (cmds : list (QueueCmd Msg)) (ms : Z)
    (id : QueueId) :
  let q := runCmds cmds (newInMemoryQueue ms) in
  incrementAttempts id q =
    mkInMemoryQueue
      (map (fun x => if QueueId_eqb (item_id x) id
                     then mkQueueItem (item_id x) (message x) (priority x) (addedAt x)
                            (S (attempts x))
                     else x) (queue q))
      ms (idCounter q).
Proof.
  intros q. destruct (reachable_invariant cmds ms) as (_ & Hd & _ & Hm). fold q in Hd, Hm.
  unfold incrementAttempts. rewrite (incrementFirst_unique id _ Hd), Hm. reflexivity.
Qed.

(** Extra: [dequeueBatch(count)] returns the first [count] items in queue
    order (all of them when [count] exceeds the size, none when [count <= 0])
    and leaves the rest queued. *)
Theorem dequeueBatch_takes_front {Msg} (count : Z) (q : InMemoryQueue Msg) :
  dequeueBatch count q =
    (firstn (Z.to_nat count) (queue q),
     mkInMemoryQueue (skipn (Z.to_nat count) (queue q)) (maxSize q) (idCounter q)).
Proof. apply dequeueBatch_split. Qed.

(* ================================================================== *)
(** * Backoff delays: properties *)

(** Extra: without jitter, for [initialDelayMs >= 0] and [multiplier >= 1],
    the delay never decreases from one attempt to a later one and never
    exceeds [floor(maxDelayMs)]. *)
Theorem calculateBackoff_nondecreasing_capped (a b : nat) (initialDelayMs maxDelayMs multiplier
    random : Q)
    (Hi : (0 <= initialDelayMs)%Q) (Hm : (1 <= multiplier)%Q) (Hab : (a <= b)%nat) :
  calculateBackoff a initialDelayMs maxDelayMs multiplier false random
    <= calculateBackoff b initialDelayMs maxDelayMs multiplier false random
    <= Qfloor maxDelayMs.
Proof.
  unfold calculateBackoff. cbv zeta. cbv iota. split; apply Qfloor_resp_le.
  - apply Q.min_le_compat_r. rewrite !(Qmult_comm initialDelayMs).
    apply Qmult_le_compat_r; [|exact Hi].
    apply Qpower_le_compat_l; [lia | exact Hm].
  - apply Q.le_min_r.
Qed.

Lemma calculateBackoff_nondecreasing_capped_witness :
  (0 <= 1000)%Q /\ (1 <= 2)%Q /\ (1 <= 4)%nat /\
  calculateBackoff 1 1000 5000 2 false 0 <= calculateBackoff 4 1000 5000 2 false 0
    <= Qfloor 5000.
Proof.
  assert (H1 : (0 <= 1000)%Q) by (vm_compute; discriminate).
  assert (H2 : (1 <= 2)%Q) by (vm_compute; discriminate).
  assert (H3 : (1 <= 4)%nat) by lia.
  split; [exact H1|]. split; [exact H2|]. split; [exact H3|].
  exact (calculateBackoff_nondecreasing_capped 1 4 1000 5000 2 0 H1 H2 H3).
Defined.

(** Extra: with jitter, for [maxDelayMs >= 0] and [Math.random()] in
    [0, 1], the delay is never negative and at most
    [floor(maxDelayMs * 1.25)]: jitter may take it up to 25% above
    [maxDelayMs]. *)
Theorem calculateBackoff_jitter_range (attempt : nat) (initialDelayMs maxDelayMs multiplier
    random : Q)
    (Hmax : (0 <= maxDelayMs)%Q) (Hr0 : (0 <= random)%Q) (Hr1 : (random <= 1)%Q) :
  0 <= calculateBackoff attempt initialDelayMs maxDelayMs multiplier true random
    <= Qfloor (maxDelayMs * (5 # 4)).
Proof.
  unfold calculateBackoff. cbv zeta. cbv iota.
  set (d := Qmin (initialDelayMs * multiplier ^ Z.of_nat attempt) maxDelayMs).
  assert (Hd : (d <= maxDelayMs)%Q) by apply Q.le_min_r.
  split.
  - change 0 with (Qfloor 0). apply Qfloor_resp_le. apply Q.le_max_l.
  - apply Qfloor_resp_le. apply Q.max_lub; [lra|].
    destruct (Qlt_le_dec d 0) as [Hneg|Hnn].
    + assert (Hrd : (random * d <= 0)%Q).
      { setoid_replace (random * d)%Q with (- (random * - d))%Q by ring.
        assert (0 <= random * - d)%Q by (apply Qmult_le_0_compat; lra). lra. }
      lra.
    + assert (Hrd : (random * d <= d)%Q).
      { assert (0 <= (1 - random) * d)%Q by (apply Qmult_le_0_compat; lra). lra. }
      lra.
Qed.

Lemma calculateBackoff_jitter_range_witness :
  (0 <= 5000)%Q /\ (0 <= 9 # 10)%Q /\ (9 # 10 <= 1)%Q /\
  0 <= calculateBackoff 3 1000 5000 2 true (9 # 10) <= Qfloor (5000 * (5 # 4)).
Proof.
  assert (H1 : (0 <= 5000)%Q) by (vm_compute; discriminate).
  assert (H2 : (0 <= 9 # 10)%Q) by (vm_compute; discriminate).
  assert (H3 : (9 # 10 <= 1)%Q) by (vm_compute; discriminate).
  split; [exact H1|]. split; [exact H2|]. split; [exact H3|].
  exact (calculateBackoff_jitter_range 3 1000 5000 2 (9 # 10) H1 H2 H3).
Defined.

(* ================================================================== *)
(** * Rate limiter: the token levels stay within the buckets *)

Lemma bucketOk_later (t t' : Z) (b : TokenBucket) :
  bucketOk t b -> t <= t' -> bucketOk t' b.
Proof. intros (H1 & H2 & H3) Ht. repeat split; try apply H1; try lia; exact H3. Qed.

Lemma refill_ok (t0 t : Z) (b : TokenBucket) :
  bucketOk t0 b -> t0 <= t ->
  bucketOk t (refill t b) /\ lastRefill (refill t b) = t /\
  capacity (refill t b) = capacity b /\ refillRate (refill t b) = refillRate b.
Proof.
  intros ([H0 H1] & H2 & H3) Ht. unfold bucketOk, refill; simpl.
  assert (HD : (0 <= inject_Z (t - lastRefill b))%Q) by (unfold Qle; simpl; lia).
  pose proof (Qmult_le_0_compat _ _ HD H3).
  repeat split; try lia; try exact H3.
  - apply Q.min_glb; lra.
  - apply Q.le_min_l.
Qed.

Lemma tryConsume_ok (count : Q) (t0 t : Z) (b : TokenBucket) :
  (0 <= count)%Q -> bucketOk t0 b -> t0 <= t ->
  bucketOk t (snd (tryConsume count t b)) /\
  capacity (snd (tryConsume count t b)) = capacity b.
Proof.
  intros Hn Hb Ht. destruct (refill_ok t0 t b Hb Ht) as (([K0 K1] & K2 & K3) & _ & C & _).
  unfold tryConsume. cbv zeta. set (b1 := refill t b) in *.
  destruct (Qle_bool count (tokens b1)) eqn:E; cbn [fst snd].
  - apply Qle_bool_iff in E. unfold bucketOk; cbn [tokens capacity lastRefill refillRate].
    repeat split; try lra; try lia; auto.
  - split; [repeat split; auto | exact C].
Qed.

Lemma getWaitTime_ok (count : Q) (t0 t : Z) (b : TokenBucket) :
  bucketOk t0 b -> t0 <= t ->
  bucketOk t (snd (getWaitTime count t b)) /\
  capacity (snd (getWaitTime count t b)) = capacity b.
Proof.
  intros Hb Ht. destruct (refill_ok t0 t b Hb Ht) as (K & _ & C & _).
  unfold getWaitTime. destruct (Qle_bool _ _); simpl; auto.
Qed.

Lemma acquire_ok (count : Q) (t0 t : Z) (rl : RateLimiter) :
  (0 <= count)%Q -> limiterOk t0 rl -> t0 <= t -> limiterOk t (snd (acquire count t rl)).
Proof.
  intros Hn (Hs & Hm & Hps & Hpm) Ht. unfold acquire.
  destruct (negb (rl_enabled (rl_config rl))).
  - simpl. refine (conj _ (conj _ (conj Hps Hpm))); apply (bucketOk_later t0); assumption.
  - destruct (tryConsume_ok count t0 t _ Hn Hs Ht) as [S1 _].
    destruct (tryConsume_ok count t0 t _ Hn Hm Ht) as [M1 _].
    destruct (tryConsume count t (perSecondBucket rl)) as [c1 ps1].
    destruct (tryConsume count t (perMinuteBucket rl)) as [c2 pm1]. simpl in S1, M1.
    destruct (c1 && c2); [exact (conj S1 (conj M1 (conj Hps Hpm)))|].
    destruct (getWaitTime_ok count t t ps1 S1 (Z.le_refl t)) as [S2 _].
    destruct (getWaitTime_ok count t t pm1 M1 (Z.le_refl t)) as [M2 _].
    destruct (getWaitTime count t ps1) as [w1 ps2].
    destruct (getWaitTime count t pm1) as [w2 pm2]. simpl in *.
    exact (conj S2 (conj M2 (conj Hps Hpm))).
Qed.

Lemma getStatus_ok (t0 t : Z) (rl : RateLimiter) :
  limiterOk t0 rl -> t0 <= t ->
  let '((s, m, _), rl') := getStatus t rl in
  limiterOk t rl' /\ s = tokens (perSecondBucket rl') /\ m = tokens (perMinuteBucket rl') /\
  capacity (perSecondBucket rl') = capacity (perSecondBucket rl) /\
  capacity (perMinuteBucket rl') = capacity (perMinuteBucket rl).
Proof.
  intros (Hs & Hm & Hps & Hpm) Ht. unfold getStatus, getTokenCount. simpl.
  destruct (refill_ok t0 t _ Hs Ht) as (S1 & _ & C1 & _).
  destruct (refill_ok t0 t _ Hm Ht) as (M1 & _ & C2 & _).
  split; [exact (conj S1 (conj M1 (conj Hps Hpm)))|].
  split; [reflexivity|]. split; [reflexivity|]. split; assumption.
Qed.

Lemma reset_ok (t0 t : Z) (rl : RateLimiter) :
  limiterOk t0 rl -> limiterOk t (reset t rl).
Proof.
  intros (_ & _ & Hps & Hpm). unfold limiterOk, bucketOk, reset, newTokenBucket; simpl.
  repeat split; try lra; try lia.
  - apply Qle_shift_div_l; [reflexivity|]. lra.
  - apply Qle_shift_div_l; [reflexivity|]. lra.
Qed.

Lemma newRateLimiter_ok (config : RateLimitConfig) (t0 : Z) :
  let c := rl_config (newRateLimiter config t0) in
  (0 <= maxPerSecond c)%Q -> (0 <= maxPerMinute c)%Q -> (0 <= burstMultiplier c)%Q ->
  limiterOk t0 (newRateLimiter config t0).
Proof.
  intros c Hps Hpm Hb. unfold c in *. clear c.
  unfold limiterOk, bucketOk, newRateLimiter, newTokenBucket in *; simpl in *.
  assert (F : forall x y, (0 <= x)%Q -> (0 <= y)%Q -> (0 <= inject_Z (Qfloor (x * y)))%Q).
  { intros x y Hx Hy.
    assert (0 <= Qfloor (x * y))%Z.
    { change 0%Z with (Qfloor 0). apply Qfloor_resp_le. apply Qmult_le_0_compat; assumption. }
    change 0%Q with (inject_Z 0). rewrite <- Zle_Qle. assumption. }
  destruct (nullish (opt_allowBurst config) true); simpl;
    repeat split; try lra; try lia; try (apply F; assumption);
    apply Qle_shift_div_l; try reflexivity; lra.
Qed.

Lemma runLimiter_ok (calls : list LimiterCall) :
  forall t0 t rl,
  Forall (fun c => match c with CallAcquire n _ => (0 <= n)%Q | _ => True end) calls ->
  Sorted Z.le (t0 :: List.app (map callTime calls) [t]) ->
  limiterOk t0 rl ->
  limiterOk t (runLimiter calls rl).
Proof.
  unfold runLimiter. induction calls as [|c cs IH]; intros t0 t rl Hn Hs Hok; simpl in *.
  - apply Sorted_inv in Hs as [_ Hd]. inversion Hd; subst.
    destruct Hok as (H1 & H2 & H3 & H4).
    refine (conj _ (conj _ (conj H3 H4))); apply (bucketOk_later t0); assumption.
  - apply Sorted_inv in Hs as [Hs Hd]. inversion Hd as [|? ? Hle]; subst.
    inversion Hn as [|? ? Hc Hcs]; subst.
    apply (IH (callTime c)); [exact Hcs | exact Hs|].
    destruct c as [n t'|t'|t']; simpl in *.
    + apply (acquire_ok n t0); assumption.
    + destruct Hok as (Hs0 & Hm0 & Hps & Hpm).
      exact (conj (proj1 (refill_ok t0 t' _ Hs0 Hle))
               (conj (proj1 (refill_ok t0 t' _ Hm0 Hle)) (conj Hps Hpm))).
    + apply (reset_ok t0); exact Hok.
Qed.

(** Extra: for a limiter built with nonnegative [maxPerSecond],
    [maxPerMinute] and [burstMultiplier], after any sequence of
    [acquire(count)] with [count >= 0], [getStatus()] and [reset()] calls at
    nondecreasing instants, [getStatus()] reports token counts between 0 and
    the capacity of the respective bucket. *)
Theorem getStatus_within_capacity (config : RateLimitConfig) (t0 t : Z)
    (calls : list LimiterCall)
    (Hps : (0 <= maxPerSecond (rl_config (newRateLimiter config t0)))%Q)
    (Hpm : (0 <= maxPerMinute (rl_config (newRateLimiter config t0)))%Q)
    (Hb : (0 <= burstMultiplier (rl_config (newRateLimiter config t0)))%Q)
    (Hn : Forall (fun c => match c with CallAcquire n _ => (0 <= n)%Q | _ => True end) calls)
    (Hs : Sorted Z.le (t0 :: List.app (map callTime calls) [t])) :
  let rl := runLimiter calls (newRateLimiter config t0) in
  (0 <= fst (fst (fst (getStatus t rl))) <= capacity (perSecondBucket rl))%Q /\
  (0 <= snd (fst (fst (getStatus t rl))) <= capacity (perMinuteBucket rl))%Q.
Proof.
  intros rl.
  pose proof (runLimiter_ok calls t0 t _ Hn Hs (newRateLimiter_ok config t0 Hps Hpm Hb)) as Ok.
  fold rl in Ok.
  pose proof (getStatus_ok t t rl Ok (Z.le_refl t)) as G.
  destruct (getStatus t rl) as [[[s m] e] rl'] eqn:E. simpl.
  destruct G as ((([S0 S1] & _) & ([M0 M1] & _) & _) & -> & -> & C1 & C2).
  rewrite <- C1, <- C2. split; split; assumption.
Qed.

Lemma getStatus_within_capacity_witness :
  let config := mkRateLimitConfig None None None None None in
  let calls := [CallAcquire 5 0; CallReset 10; CallAcquire 1 20] in
  (0 <= maxPerSecond (rl_config (newRateLimiter config 0)))%Q /\
  (0 <= maxPerMinute (rl_config (newRateLimiter config 0)))%Q /\
  (0 <= burstMultiplier (rl_config (newRateLimiter config 0)))%Q /\
  Forall (fun c => match c with CallAcquire n _ => (0 <= n)%Q | _ => True end) calls /\
  Sorted Z.le (0 :: List.app (map callTime calls) [30]) /\
  let rl := runLimiter calls (newRateLimiter config 0) in
  (0 <= fst (fst (fst (getStatus 30 rl))) <= capacity (perSecondBucket rl))%Q /\
  (0 <= snd (fst (fst (getStatus 30 rl))) <= capacity (perMinuteBucket rl))%Q.
Proof.
  intros config calls.
  assert (H1 : (0 <= maxPerSecond (rl_config (newRateLimiter config 0)))%Q)
    by (vm_compute; discriminate).
  assert (H2 : (0 <= maxPerMinute (rl_config (newRateLimiter config 0)))%Q)
    by (vm_compute; discriminate).
  assert (H3 : (0 <= burstMultiplier (rl_config (newRateLimiter config 0)))%Q)
    by (vm_compute; discriminate).
  assert (H4 : Forall (fun c => match c with CallAcquire n _ => (0 <= n)%Q | _ => True end)
                 calls)
    by (repeat constructor; vm_compute; discriminate).
  assert (H5 : Sorted Z.le (0 :: List.app (map callTime calls) [30]))
    by (simpl; repeat (constructor; try lia)).
  split; [exact H1|]. split; [exact H2|]. split; [exact H3|]. split; [exact H4|].
  split; [exact H5|].
  exact (getStatus_within_capacity config 0 30 calls H1 H2 H3 H4 H5).
Defined.

(* ================================================================== *)
(** * PushError.isRetryable: letter case *)

Lemma lowerAscii_cases (c : ascii) :
  lowerAscii c = c \/ (97 <= nat_of_ascii (lowerAscii c) <= 122)%nat.
Proof.
  unfold lowerAscii. destruct ((65 <=? nat_of_ascii c)%nat && (nat_of_ascii c <=? 90)%nat) eqn:E;
    [right|left; reflexivity].
  apply andb_true_iff in E as [E1 E2]. apply Nat.leb_le in E1, E2.
  rewrite nat_ascii_embedding by lia. lia.
Qed.

Lemma lowerAscii_idem (c : ascii) : lowerAscii (lowerAscii c) = lowerAscii c.
Proof.
  destruct (lowerAscii_cases c) as [E|E]; [rewrite E; exact E|].
  unfold lowerAscii at 1.
  replace ((65 <=? nat_of_ascii (lowerAscii c))%nat && (nat_of_ascii (lowerAscii c) <=? 90)%nat)
    with false; [reflexivity|].
  symmetry. apply andb_false_iff. right. apply Nat.leb_gt. lia.
Qed.

Lemma lowerString_idem (s : string) : lowerString (lowerString s) = lowerString s.
Proof. induction s as [|c s IH]; simpl; [reflexivity|]. rewrite lowerAscii_idem, IH. reflexivity. Qed.

Lemma lowerAscii_fixed_char (a c : ascii) :
  lowerAscii a = a -> ~ (97 <= nat_of_ascii a <= 122)%nat -> (lowerAscii c = a <-> c = a).
Proof.
  intros Ha Hn. split.
  - intros E. destruct (lowerAscii_cases c) as [Ec|Ec].
    + rewrite <- Ec. exact E.
    + rewrite E in Ec. contradiction.
  - intros ->. exact Ha.
Qed.

Lemma prefix_lowerString (p s : string) :
  (forall a, In a (list_ascii_of_string p) ->
     lowerAscii a = a /\ ~ (97 <= nat_of_ascii a <= 122)%nat) ->
  prefix p (lowerString s) = prefix p s.
Proof.
  revert s. induction p as [|a p IH]; intros s H; [destruct s; reflexivity|].
  destruct s as [|c s]; simpl; [reflexivity|].
  destruct (H a (or_introl eq_refl)) as [Ha Hn].
  pose proof (lowerAscii_fixed_char a c Ha Hn) as F.
  destruct (ascii_dec a (lowerAscii c)) as [E1|E1], (ascii_dec a c) as [E2|E2].
  - apply IH. intros b Hb. apply H. right; exact Hb.
  - exfalso. apply E2. symmetry. apply F. symmetry. exact E1.
  - exfalso. apply E1. symmetry. apply F. symmetry. exact E2.
  - reflexivity.
Qed.

Lemma containsStr_lowerString (p s : string) :
  (forall a, In a (list_ascii_of_string p) ->
     lowerAscii a = a /\ ~ (97 <= nat_of_ascii a <= 122)%nat) ->
  containsStr p (lowerString s) = containsStr p s.
Proof.
  intros H. induction s as [|c s IH].
  - destruct p; reflexivity.
  - change (prefix p (lowerString (String c s)) || containsStr p (lowerString s) =
            prefix p (String c s) || containsStr p s).
    rewrite (prefix_lowerString p (String c s) H), IH. reflexivity.
Qed.

(** Extra: for an [Error] that is not a [PushError], [isRetryable] depends
    neither on the error's [name] nor on the letter case of its message:
    lowering the message's letters gives the same answer. *)
Theorem isRetryable_ignores_letter_case (name name' msg : string) :
  isRetryable (mkJsError name msg None) = isRetryable (mkJsError name' (lowerString msg) None).
Proof.
  unfold isRetryable, retryablePatterns, regexTest. simpl.
  rewrite lowerString_idem.
  assert (D : forall p, p = "503"%string \/ p = "502"%string \/ p = "429"%string \/
                        p = "500"%string ->
              containsStr p (lowerString msg) = containsStr p msg).
  { intros p Hp. apply containsStr_lowerString.
    destruct Hp as [ -> | [ -> | [ -> | -> ]]]; simpl;
      intros a Ha; repeat destruct Ha as [<-|Ha]; try contradiction;
      (split; [reflexivity | unfold nat_of_ascii, N_of_ascii; simpl; lia]). }
  rewrite (D "503"%string), (D "502"%string), (D "429"%string), (D "500"%string) by tauto.
  reflexivity.
Qed.
